(** * eonc-rest: the request-dispatch engine of [lib/server.js]

    A shallow embedding of the connect-style server of eonc
    ([createServer], [use], [handle] with its continuation [next], [call],
    [getProtohost]) and the properties of its dispatch discipline.

    Modelling conventions.
    - A JavaScript string is a [string]: a sequence of code units below
      256, which covers the request targets of HTTP request lines.
      [toLowerCase] is the Unicode lowering restricted to that range; it
      keeps the length of every such string.
    - [-1] results of [indexOf] and [undefined] are [None].
    - The closure [next] of one call of [handle] owns the mutable locals
      [index], [removed] and [slashAdded]; they live in a [frame] of the
      store [frames], and the closure itself is the frame's number.
    - [setImmediate] is a FIFO queue of pending tasks, run by [loop].
    - [parseUrl] (package parseurl) is a parameter of the development.
    - A handler body is foreign code. It is described by the finite script
      of what it does to the engine: assignments to [req.url], calls of the
      continuation (now, or in a later turn), and how it ends.
    - [next] takes fuel, one unit for each call of [next] nested in
      another; more fuel never changes a result.
    - The state carries a trace of what the engine examined, called and
      handed over to, which the engine never reads. *)

From Stdlib Require Import Ascii String ZArith Lia.

From stdpp Require Import base option list strings relations.

Set Warnings "-register-all".

Local Open Scope string_scope.

Local Open Scope nat_scope.

Local Open Scope list_scope.

(** ** JavaScript strings *)

Module JsString.

(** [s.substr(n)] for [0 <= n]. *)
Fixpoint substr_from (n : nat) (s : string) : string :=
  match n, s with
  | O, _ => s
  | S _, EmptyString => EmptyString
  | S n', String _ s' => substr_from n' s'
  end.

(** [s.substr(0, n)] for [0 <= n]. *)
Fixpoint substr_to (n : nat) (s : string) : string :=
  match n, s with
  | O, _ => EmptyString
  | S _, EmptyString => EmptyString
  | S n', String c s' => String c (substr_to n' s')
  end.

(** [s.substr(0, i)] where [i] is the result of an [indexOf]: a negative
    length gives the empty string. *)
Definition substr_to_index (i : option nat) (s : string) : string :=
  match i with
  | Some n => substr_to n s
  | None => EmptyString
  end.

(** [s[i]]; [None] is [undefined]. *)
Definition char_at (i : nat) (s : string) : option ascii := String.get i s.

(** [s.slice(0, -1)]. *)
Fixpoint slice_0_m1 (s : string) : string :=
  match s with
  | EmptyString => EmptyString
  | String c EmptyString => EmptyString
  | String c s' => String c (slice_0_m1 s')
  end.

(** [s[s.length - 1]]. *)
Fixpoint last_char (s : string) : option ascii :=
  match s with
  | EmptyString => None
  | String c EmptyString => Some c
  | String _ s' => last_char s'
  end.

(** [s.indexOf(pat)], scanning [s] from its head; [skipped] counts the
    code units already passed. *)
Fixpoint index_of_aux (pat s : string) (skipped : nat) : option nat :=
  if String.prefix pat s then Some skipped
  else match s with
       | EmptyString => None
       | String _ s' => index_of_aux pat s' (S skipped)
       end.

(** [s.indexOf(pat, from)] for [0 <= from]. *)
Definition index_of_from (pat : string) (from : nat) (s : string) : option nat :=
  if (String.length s <? from)%nat then
    (if String.eqb pat "" then Some (String.length s) else None)
  else index_of_aux pat (substr_from from s) from.

Definition index_of (pat s : string) : option nat := index_of_from pat 0 s.

Definition lower_char (c : ascii) : ascii :=
  let n := nat_of_ascii c in
  if ((65 <=? n) && (n <=? 90)) || ((192 <=? n) && (n <=? 222) && negb (n =? 215))
  then ascii_of_nat (n + 32) else c.

Fixpoint toLowerCase (s : string) : string :=
  match s with
  | EmptyString => EmptyString
  | String c s' => String (lower_char c) (toLowerCase s')
  end.

End JsString.

Import JsString.

(** ** JavaScript values that travel as errors *)

Inductive value : Type :=
| VUndefined
| VNull
| VBool (b : bool)
| VNum (z : Z)
| VStr (s : string)
| VObj (id : nat).

(** [Boolean(v)]. *)
Definition Boolean (v : value) : bool :=
  match v with
  | VUndefined | VNull => false
  | VBool b => b
  | VNum z => negb (z =? 0)%Z
  | VStr s => negb (String.eqb s "")
  | VObj _ => true
  end.

(** ** Requests, handlers and layers *)

(** The request, as far as the engine reads it: [req.method] (for the debug
    line), [req.url] and [req.originalUrl]. *)
Record request := Request {
  method : string;
  url : string;
  originalUrl : option string
}.

(** How a handler is applied: [handle(err, req, res, next)] or
    [handle(req, res, next)] (for an Endpoint, [handle.handle(req, res, next)]). *)
Inductive callargs :=
| ErrorArgs (err : value) (r : request)
| RequestArgs (r : request).

(** What a handler body does with the engine. *)
Inductive action :=
| SetUrl (u : string)          (* req.url = u *)
| CallNext (e : value)         (* next(e), synchronously *)
| LaterNext (e : value).       (* next(e) from a later turn of the event loop *)

Inductive ending :=
| Return
| Throw (e : value).

Definition script : Type := list action * ending.

(** The members of a stack. [length] is the [length] property of the
    function (falsy, hence [0], when an Endpoint object has none).
    [SubApp] is what [use] makes of a server: the wrapper
    [function (req, res, next) { server.handle(req, res, next) }]. *)
Inductive handler :=
| Fn (length : nat) (body : callargs -> script)
| EndpointObj (length : nat) (body : callargs -> script)
| SubApp (route : string) (stack : list (string * handler)).

(** A layer of a stack: [{route: lpath, handle: lhandle}]. *)
Definition layer : Type := string * handler.

Definition layer_route (l : layer) : string := fst l.

Definition layer_handle (l : layer) : handler := snd l.

Record server := Server {
  srv_route : string;
  srv_stack : list layer
}.

Definition createServer : server := Server "/" [].

(** What can be handed to [use] as middleware: a function, an Endpoint, a
    server made by [createServer] (it has a [handle] method), or an
    [http.Server] made by [http.createServer(listener)], which stands for
    its first ['request'] listener. *)
Inductive middleware :=
| MFunction (length : nat) (body : callargs -> script)
| MEndpoint (length : nat) (body : callargs -> script)
| MServer (s : server)
| MHttpServer (listener : handler).

(** The first argument of [use]: a string or the middleware itself. *)
Inductive route_arg :=
| RString (s : string)
| RMiddleware (m : middleware).

(** ** [getProtohost] *)

Definition getProtohost (url : string) : option string :=
  if (String.length url =? 0) || bool_decide (char_at 0 url = Some "/"%char) then None
  else
    let searchIndex := index_of "?" url in
    let pathLength := match searchIndex with Some i => i | None => String.length url end in
    let fqdnIndex := index_of "://" (substr_to pathLength url) in
    match fqdnIndex with
    | Some i => Some (substr_to_index (index_of_from "/" (3 + i) url) url)
    | None => None
    end.

(** [getProtohost(req.url) || ''] *)
Definition protohost_of (url : string) : string :=
  match getProtohost url with
  | Some p => p
  | None => ""
  end.

(** ** [use]

    Only what dispatch reads is kept: [fullRoute], [name] and [owner] feed
    the debug line and nothing else. The second argument is absent in
    [use(fn)]. [None] as a result is a [TypeError]: the one that reading
    [lhandle.handle] raises when the middleware is [undefined], or the one
    that [path.basename(route)] raises for an Endpoint when [route] is not
    a string. *)

(** The handle that goes on the stack for a middleware used at [lpath]. *)
Definition wrap (route : route_arg) (lpath : string) (m : middleware)
  : option handler :=
  match m with
  | MHttpServer listener => Some listener         (* wrap vanilla http.Servers *)
  | MEndpoint n b =>                              (* wrap Endpoint *)
      match route with
      | RString _ => Some (EndpointObj n b)       (* name = path.basename(route) *)
      | RMiddleware _ => None
      end
  | MServer s => Some (SubApp lpath (srv_stack s)) (* wrap sub-apps *)
  | MFunction n b => Some (Fn n b)
  end.

(** The mount path as stored: [lpath.slice(0, -1)] when
    [lpath[lpath.length - 1] === '/']. *)
Definition strip_trailing_slash (lpath : string) : string :=
  if bool_decide (last_char lpath = Some "/"%char) then slice_0_m1 lpath else lpath.

Definition use (route : route_arg) (fn : option middleware) (this : server)
  : option server :=
  let lhandle := fn in
  (* default route to '/' *)
  let '(lhandle, lpath) :=
    match route with
    | RString s => (lhandle, s)
    | RMiddleware m => (Some m, "/")
    end in
  m ← lhandle;
  lhandle ← wrap route lpath m;
  (* strip trailing slash *)
  let lpath := strip_trailing_slash lpath in
  (* define the middleware *)
  Some (Server (srv_route this) (srv_stack this ++ [(lpath, lhandle)])).

(** ** The state of a dispatch *)

(** A continuation: the [next] of a frame, the [finalhandler] that [handle]
    builds when it is given no [out], or an [out] supplied from outside. *)
Inductive cont :=
| KNext (fid : nat)
| KFinal
| KOut.

(** The locals of one call of [handle], shared by its closure [next]. *)
Record frame := Frame {
  index : nat;
  protohost : string;
  removed : string;
  slashAdded : bool;
  stack : list layer;
  done : cont
}.

(** Observations, kept in a trace for the statements below; the engine
    never reads them. [Called] is the debug line of [call] together with
    what [call] then does. *)
Inductive verdict := PrefixMiss | BoundaryMiss | Hit.

Inductive outcome :=
| Invoked (a : callargs)
| NotInvoked.

Inductive event :=
| Examined (fid idx : nat) (route url path : string) (err : value) (v : verdict)
| Called (fid : nat) (route : string) (arity : option nat) (err : value) (o : outcome)
| Terminal (k : cont) (err : value) (r : request).

(** The request being dispatched, the frames of the calls of [handle] made
    for it, the queue of the event loop, and the trace. *)
Record state := State {
  req : request;
  frames : list frame;
  tasks : list (cont * value);
  trace : list event
}.

Definition set_url (u : string) (st : state) : state :=
  State (Request (method (req st)) u (originalUrl (req st)))
        (frames st) (tasks st) (trace st).

Definition set_frame (fid : nat) (f : frame) (st : state) : state :=
  State (req st) (<[fid := f]> (frames st)) (tasks st) (trace st).

Definition log (ev : event) (st : state) : state :=
  State (req st) (frames st) (tasks st) (trace st ++ [ev]).

(** [defer(k, err)]: [setImmediate] (or [process.nextTick]) queues the call. *)
Definition defer (k : cont) (err : value) (st : state) : state :=
  State (req st) (frames st) (tasks st ++ [(k, err)]) (trace st).

(** ** The continuation [next], piece by piece *)

(** Its opening: undo the synthesized slash, put the removed prefix back. *)
Definition restore (f : frame) (u : string) : frame * string :=
  let '(u, slashAdded) :=
    if slashAdded f then (substr_from 1 u, false) else (u, slashAdded f) in
  let '(u, removed) :=
    if negb (String.length (removed f) =? 0)
    then (protohost f +:+ removed f +:+ substr_from (String.length (protohost f)) u, "")
    else (u, removed f) in
  (Frame (index f) (protohost f) removed slashAdded (stack f) (done f), u).

(** The prefix test on the lowered strings. *)
Definition prefix_hit (route path : string) : bool :=
  String.eqb (substr_to (String.length route) (toLowerCase path)) (toLowerCase route).

(** The border test: [c !== undefined && '/' !== c && '.' !== c] fails. *)
Definition border_hit (route path : string) : bool :=
  match char_at (String.length route) path with
  | None => true
  | Some c => bool_decide (c = "/"%char) || bool_decide (c = "."%char)
  end.

Definition classify (route path : string) : verdict :=
  if negb (prefix_hit route path) then PrefixMiss
  else if negb (border_hit route path) then BoundaryMiss
  else Hit.

(** Trim off the part of the url that matches the route. *)
Definition trim (route : string) (f : frame) (u : string) : frame * string :=
  if negb (String.length route =? 0) && negb (String.eqb route "/") then
    let removed := route in
    let u := protohost f +:+ substr_from (String.length (protohost f) + String.length removed) u in
    (* ensure leading slash *)
    if String.eqb (protohost f) "" && negb (bool_decide (char_at 0 u = Some "/"%char))
    then (Frame (index f) (protohost f) removed true (stack f) (done f), "/" +:+ u)
    else (Frame (index f) (protohost f) removed (slashAdded f) (stack f) (done f), u)
  else (f, u).

(** [index++] *)
Definition advance (f : frame) : frame :=
  Frame (S (index f)) (protohost f) (removed f) (slashAdded f) (stack f) (done f).

(** [req.originalUrl || req.url] *)
Definition captured (r : request) : string :=
  match originalUrl r with
  | Some o => if String.eqb o "" then url r else o
  | None => url r
  end.

(** The opening of [handle]: the locals of the new frame, and the original
    url stored: [req.originalUrl = req.originalUrl || req.url]. *)
Definition enter (stk : list layer) (out : option cont) (st : state) : state :=
  let r := req st in
  let index := 0 in
  let protohost := protohost_of (url r) in
  let removed := "" in
  let slashAdded := false in
  let done := match out with Some k => k | None => KFinal end in
  let original := captured r in
  State (Request (method r) (url r) (Some original))
        (frames st ++ [Frame index protohost removed slashAdded stk done])
        (tasks st) (trace st).

(** The request that a handler is applied to. *)
Definition args_request (a : callargs) : request :=
  match a with
  | ErrorArgs _ r => r
  | RequestArgs r => r
  end.

(** The terminal continuations invoked in a trace, with their errors. *)
Definition terminals (tr : list event) : list (cont * value) :=
  omap (fun ev => match ev with Terminal k e _ => Some (k, e) | _ => None end) tr.

(** What [call] does with a handle of arity [a] when [err] is passed on,
    the request being [r]. *)
Definition decide_call (a : option nat) (err : value) (r : request) : outcome :=
  if Boolean err && match a with Some n => n =? 4 | None => false end
  then Invoked (ErrorArgs err r)
  else if negb (Boolean err) && match a with Some n => n <? 4 | None => false end
  then Invoked (RequestArgs r)
  else NotInvoked.

(** The three ways of [call], as a function of the arity and of
    [Boolean(err)] alone. *)
Inductive mode := AsErrorHandler | AsHandler | LeftOut.

Definition mode_of (a : option nat) (hasError : bool) : mode :=
  if hasError && match a with Some n => n =? 4 | None => false end then AsErrorHandler
  else if negb hasError && match a with Some n => n <? 4 | None => false end then AsHandler
  else LeftOut.

Definition outcome_mode (o : outcome) : mode :=
  match o with
  | Invoked (ErrorArgs _ _) => AsErrorHandler
  | Invoked (RequestArgs _) => AsHandler
  | NotInvoked => LeftOut
  end.

(** [handle.length || (handle instanceof Endpoint ? 1 : undefined)] *)
Definition arity (h : handler) : option nat :=
  match h with
  | Fn n _ => if n =? 0 then None else Some n
  | EndpointObj n _ => if n =? 0 then Some 1 else Some n
  | SubApp _ _ => Some 3
  end.

(** [arity === 4] and [arity < 4]; both are false of [undefined]. *)
Definition arity_is_4 (a : option nat) : bool :=
  match a with Some n => n =? 4 | None => false end.

Definition arity_below_4 (a : option nat) : bool :=
  match a with Some n => n <? 4 | None => false end.

(** ** A concrete [parseUrl] for the examples

    The pathname of a request target without whitespace, as parseurl gives
    it: what lies between the scheme and host, if any, and the first ['?']
    or ['#']. *)

Fixpoint cut_at (c : ascii) (s : string) : string :=
  match s with
  | EmptyString => EmptyString
  | String d s' => if bool_decide (d = c) then EmptyString else String d (cut_at c s')
  end.

Definition parseurl_pathname (u : string) : option string :=
  Some (cut_at "#" (cut_at "?" (substr_from (String.length (protohost_of u)) u))).

(** Handlers used in the examples: one that passes on to the next layer,
    one that throws, one that ends the response. *)
Definition pass (n : nat) : handler := Fn n (fun _ => ([CallNext VUndefined], Return)).

Definition throws (n : nat) (e : value) : handler := Fn n (fun _ => ([], Throw e)).

Definition respond (n : nat) : handler := Fn n (fun _ => ([], Return)).

(** The registry [A (normal), B (error), C (normal)] where [A] throws. *)
Definition abc_app : server :=
  Server "/" [("", throws 3 (VObj 1)); ("", pass 4); ("", respond 3)].

(** A dispatcher nested at [/adm], three layers of its own. *)
Definition nested_app : server :=
  Server "/" [("/adm", SubApp "/adm" [("/x", pass 3); ("/y", pass 3); ("", pass 2)]);
              ("", respond 3)].

Section Engine.

(** [parseUrl(req).pathname] as a function of [req.url]. *)
Variable parseUrl : string -> option string.

(** [parseUrl(req).pathname || '/'] *)
Definition pathname_of (u : string) : string :=
  match parseUrl u with
  | Some p => if String.eqb p "" then "/" else p
  | None => "/"
  end.

(** The recursion of the engine goes through [next] alone; the other
    functions receive it as [nxt], the continuation of any frame. *)
Section Knot.

Variable nxt : nat -> value -> state -> option state.

(** [handle]: a new frame, the original url recorded, and [next()]. *)
Definition handle (stk : list layer) (out : option cont) (st : state)
  : option state :=
  nxt (length (frames st)) VUndefined (enter stk out st).

(** The body of a handler, run against the frame [fid] whose [next] it
    was given. *)
Definition run_action (fid : nat) (a : action) (st : state) : option state :=
  match a with
  | SetUrl u => Some (set_url u st)
  | CallNext e => nxt fid e st
  | LaterNext e => Some (defer (KNext fid) e st)
  end.

Fixpoint run_actions (fid : nat) (acts : list action) (st : state)
  : option state :=
  match acts with
  | [] => Some st
  | a :: rest => st' ← run_action fid a st; run_actions fid rest st'
  end.

Definition apply_handler (h : handler) (a : callargs) (fid : nat) (st : state)
  : option (state * ending) :=
  match h with
  | Fn _ body | EndpointObj _ body =>
      st' ← run_actions fid (fst (body a)) st; Some (st', snd (body a))
  | SubApp _ stk =>
      st' ← handle stk (Some (KNext fid)) st; Some (st', Return)
  end.

(** [call]: invoke a route handle. *)
Definition call (h : handler) (route : string) (err : value) (fid : nat)
           (st : state) : option state :=
  let arity := arity h in
  let error := err in
  let hasError := Boolean err in
  if hasError && arity_is_4 arity then
    (* error-handling middleware *)
    let a := ErrorArgs err (req st) in
    r ← apply_handler h a fid (log (Called fid route arity err (Invoked a)) st);
    match snd r with
    | Return => Some (fst r)
    | Throw e => nxt fid e (fst r)       (* replace the error; continue *)
    end
  else if negb hasError && arity_below_4 arity then
    (* request-handling middleware, or an Endpoint's [handle] *)
    let a := RequestArgs (req st) in
    r ← apply_handler h a fid (log (Called fid route arity err (Invoked a)) st);
    match snd r with
    | Return => Some (fst r)
    | Throw e => nxt fid e (fst r)
    end
  else
    (* continue *)
    nxt fid error (log (Called fid route arity err NotInvoked) st).

(** [next] after its opening: pop the layer, test it, trim, call. *)
Definition examine (fid : nat) (err : value) (f : frame) (st : state)
  : option state :=
  let u := url (req st) in
  (* next callback *)
  let layer := stack f !! index f in
  let idx := index f in
  let f := advance f in
  let st := set_frame fid f st in
  match layer with
  | None =>
      (* all done *)
      Some (defer (done f) err st)
  | Some layer =>
      (* route data *)
      let path := pathname_of u in
      let route := layer_route layer in
      if negb (prefix_hit route path) then
        (* skip this layer if the route doesn't match *)
        nxt fid err (log (Examined fid idx route u path err PrefixMiss) st)
      else if negb (border_hit route path) then
        (* skip if route match does not border "/", ".", or end *)
        nxt fid err (log (Examined fid idx route u path err BoundaryMiss) st)
      else
        let '(f, u') := trim route f u in
        (* call the layer handle *)
        call (layer_handle layer) route err fid
             (log (Examined fid idx route u path err Hit)
                  (set_frame fid f (set_url u' st)))
  end.

Definition next_body (fid : nat) (err : value) (st : state) : option state :=
  f ← frames st !! fid;
  let '(f, u) := restore f (url (req st)) in
  examine fid err f (set_frame fid f (set_url u st)).

End Knot.

(** [next], with fuel for the calls of [next] that a call may nest. *)
Fixpoint next (n : nat) (fid : nat) (err : value) (st : state) : option state :=
  match n with
  | O => None
  | S n' => next_body (next n') fid err st
  end.

(** One task of the queue: a deferred [done(err)]. *)
Definition run_task (n : nat) (k : cont) (err : value) (st : state)
  : option state :=
  match k with
  | KNext fid => next n fid err st
  | KFinal | KOut => Some (log (Terminal k err (req st)) st)
  end.

(** The event loop: run the queue until it is empty. *)
Fixpoint loop (n : nat) (st : state) : option state :=
  match tasks st with
  | [] => Some st
  | (k, err) :: rest =>
      match n with
      | O => None
      | S n' =>
          st' ← run_task n' k err (State (req st) (frames st) rest (trace st));
          loop n' st'
      end
  end.

(** A request arrives at a server: [Server(req, res)] and the turns of
    the event loop that follow. *)
Definition serve (n : nat) (app : server) (r : request) : option state :=
  st ← handle (next n) (srv_stack app) None (State r [] [] []);
  loop n st.

(** ** The engine as a transition system

    Every update of the state that the engine makes, with the context in
    which it makes it. [engine_step] are the updates made within a call
    of [next]; [turn_step] are those of the event loop around it. *)

(** The event that [next] logs when it examines layer [l] of frame [f]. *)
Definition examined_at (fid : nat) (f : frame) (l : layer) (err : value)
           (st : state) : event :=
  Examined fid (index f) (layer_route l) (url (req st))
           (pathname_of (url (req st))) err
           (classify (layer_route l) (pathname_of (url (req st)))).

(** The state in which [call] finds the request after a hit. *)
Definition trimmed (fid : nat) (f : frame) (l : layer) (err : value)
           (st : state) : state :=
  let ft := trim (layer_route l) (advance f) (url (req st)) in
  log (examined_at fid f l err st)
      (set_frame fid (fst ft) (set_url (snd ft) (set_frame fid (advance f) st))).

(** The event that [call] logs when it is entered for layer [l]. *)
Definition called_at (fid : nat) (l : layer) (err : value) (st : state) : event :=
  Called fid (layer_route l) (arity (layer_handle l)) err
         (decide_call (arity (layer_handle l)) err (req st)).

Inductive engine_step : state -> state -> Prop :=
| step_restore fid f st :
    frames st !! fid = Some f ->
    engine_step st (set_frame fid (fst (restore f (url (req st))))
                              (set_url (snd (restore f (url (req st)))) st))
| step_exhaust fid err f st :
    frames st !! fid = Some f ->
    stack f !! index f = None ->
    engine_step st (defer (done f) err (set_frame fid (advance f) st))
| step_miss fid err f l st :
    frames st !! fid = Some f ->
    stack f !! index f = Some l ->
    classify (layer_route l) (pathname_of (url (req st))) <> Hit ->
    engine_step st (log (examined_at fid f l err st) (set_frame fid (advance f) st))
| step_hit fid err f l st :
    frames st !! fid = Some f ->
    stack f !! index f = Some l ->
    classify (layer_route l) (pathname_of (url (req st))) = Hit ->
    engine_step st (log (called_at fid l err (trimmed fid f l err st))
                        (trimmed fid f l err st))
| step_set_url u st :
    engine_step st (set_url u st)
| step_later fid e st :
    engine_step st (defer (KNext fid) e st)
| step_enter stk out st :
    engine_step st (enter stk out st).

Inductive turn_step : state -> state -> Prop :=
| step_pop k e rest st :
    tasks st = (k, e) :: rest ->
    turn_step st (State (req st) (frames st) rest (trace st))
| step_terminal k e st :
    turn_step st (log (Terminal k e (req st)) st).

Definition any_step (st st' : state) : Prop :=
  engine_step st st' \/ turn_step st st'.

(** ** Properties of traces and states

    An event is [sound] when its verdict is the one that the tests of the
    engine give on the data it shows. *)
Definition sound (ev : event) : Prop :=
  match ev with
  | Examined _ _ route u path _ v =>
      path = pathname_of u /\ v = classify route path
  | Called _ _ a err o => exists r, o = decide_call a err r
  | Terminal _ _ _ => True
  end.

(** The layer that an [Examined] event shows is the layer at that index
    of the frame's stack, and the frame has moved past it. *)
Definition layers_shown (fs : list frame) (tr : list event) : Prop :=
  forall i fid idx r u p e v,
    tr !! i = Some (Examined fid idx r u p e v) ->
    exists f l, fs !! fid = Some f /\ stack f !! idx = Some l /\
                idx < index f /\ r = layer_route l.

(** [call] is entered only from a hit, with the handle of the layer hit. *)
Definition calls_follow_hits (fs : list frame) (tr : list event) : Prop :=
  forall i fid r a e o,
    tr !! i = Some (Called fid r a e o) ->
    exists j idx u p f l,
      i = S j /\ tr !! j = Some (Examined fid idx r u p e Hit) /\
      fs !! fid = Some f /\ stack f !! idx = Some l /\
      a = arity (layer_handle l).

(** A frame examines its layers in increasing order ... *)
Definition ordered (tr : list event) : Prop :=
  forall i j fid idx1 r1 u1 p1 e1 v1 idx2 r2 u2 p2 e2 v2,
    i < j ->
    tr !! i = Some (Examined fid idx1 r1 u1 p1 e1 v1) ->
    tr !! j = Some (Examined fid idx2 r2 u2 p2 e2 v2) ->
    idx1 < idx2.

(** ... and passes over none. *)
Definition no_gap (fs : list frame) (tr : list event) : Prop :=
  forall fid f k,
    fs !! fid = Some f -> k < index f -> k < length (stack f) ->
    exists i r u p e v, tr !! i = Some (Examined fid k r u p e v).

(** What holds of every state that the engine reaches. *)
Record Inv (st : state) : Prop := {
  inv_sound : Forall sound (trace st);
  inv_layers : layers_shown (frames st) (trace st);
  inv_calls : calls_follow_hits (frames st) (trace st);
  inv_ordered : ordered (trace st);
  inv_no_gap : no_gap (frames st) (trace st)
}.

(** Frames are only ever added, and a frame only moves forward over a
    stack that stays the same. *)
Definition extends (fs fs' : list frame) : Prop :=
  forall fid f, fs !! fid = Some f ->
    exists f', fs' !! fid = Some f' /\ stack f' = stack f /\ index f <= index f'.

(** The original url recorded is [o], and has been for every handler
    applied so far. *)
Definition original_kept (o : string) (st : state) : Prop :=
  originalUrl (req st) = Some o /\
  forall i fid rt a e args,
    trace st !! i = Some (Called fid rt a e (Invoked args)) ->
    originalUrl (args_request args) = Some o.

(** From [st] to [st'] the queue has only grown at its end and no terminal
    continuation has been invoked. *)
Definition quiet (st st' : state) : Prop :=
  (exists new, tasks st' = tasks st ++ new) /\
  terminals (trace st') = terminals (trace st).

(** [nxt'] gives every result that [nxt] gives. *)
Definition below (nxt nxt' : nat -> value -> state -> option state) : Prop :=
  forall fid e st st', nxt fid e st = Some st' -> nxt' fid e st = Some st'.

(** Two applications of a handler that show it the same error and the same
    url. *)
Definition same_view (a a' : callargs) : Prop :=
  match a, a' with
  | ErrorArgs e r, ErrorArgs e' r' => e = e' /\ url r = url r'
  | RequestArgs r, RequestArgs r' => url r = url r'
  | _, _ => False
  end.

(** A handler that looks at nothing else, and so do the handlers of the
    dispatchers nested in it. *)
Inductive blind : handler -> Prop :=
| blind_fn n b :
    (forall a a', same_view a a' -> b a = b a') -> blind (Fn n b)
| blind_endpoint n b :
    (forall a a', same_view a a' -> b a = b a') -> blind (EndpointObj n b)
| blind_sub rt stk :
    Forall (fun l => blind (snd l)) stk -> blind (SubApp rt stk).

(** A stack of such handlers. *)
Definition blind_stack (stk : list layer) : Prop :=
  Forall (fun l => blind (snd l)) stk.

(** A trace without what the requests in it carry besides the url. *)
Definition erase_request (r : request) : request := Request "" (url r) None.

Definition erase_args (a : callargs) : callargs :=
  match a with
  | ErrorArgs e r => ErrorArgs e (erase_request r)
  | RequestArgs r => RequestArgs (erase_request r)
  end.

Definition erase_event (ev : event) : event :=
  match ev with
  | Called fid rt a e (Invoked args) => Called fid rt a e (Invoked (erase_args args))
  | Terminal k e r => Terminal k e (erase_request r)
  | _ => ev
  end.

Definition shown (tr : list event) : list event := map erase_event tr.

(** Two states of the engine that differ only in that. *)
Record alike (st1 st2 : state) : Prop := {
  alike_url : url (req st1) = url (req st2);
  alike_frames : frames st1 = frames st2;
  alike_tasks : tasks st1 = tasks st2;
  alike_trace : shown (trace st1) = shown (trace st2);
  alike_blind : Forall (fun f => blind_stack (stack f)) (frames st1)
}.

(** A frame with nothing to put back. *)
Definition clean (f : frame) : frame :=
  Frame (index f) (protohost f) "" false (stack f) (done f).

(** [route.length !== 0 && route !== '/'] *)
Definition trimmable (route : string) : bool :=
  negb (String.length route =? 0) && negb (String.eqb route "/").

(** A handler that only passes control on: it calls the continuation once
    and returns, or it throws. *)
Definition forwards (h : handler) : Prop :=
  match h with
  | Fn _ body | EndpointObj _ body =>
      forall a, (exists e, body a = ([CallNext e], Return)) \/
                (exists e, body a = ([], Throw e))
  | SubApp _ _ => False
  end.

(** The url [U] spells the mount path of [l] as it is registered, where
    the layer is hit and would be trimmed. *)
Definition spelled (ph U : string) (l : layer) : Prop :=
  classify (layer_route l) (pathname_of U) = Hit ->
  trimmable (layer_route l) = true ->
  exists rest, U = ph +:+ layer_route l +:+ rest.

(** What a run of [next] in frame [c] leaves when it has handed over to
    [k]: a url of which [Q] holds, one more task, the other frames as they
    were. *)
Definition handed_over (Q : string -> Prop) (c : nat) (k : cont) (st st' : state)
  : Prop :=
  Q (url (req st')) /\
  (exists e', tasks st' = tasks st ++ [(k, e')]) /\
  (forall fid, fid <> c -> frames st' !! fid = frames st !! fid).

(** [Q] holds of the url each time [next] is entered in frame [c], after
    its opening, when a trim followed by a restore keeps it. *)
Definition kept_by_trim (Q : string -> Prop) (fc : frame) : Prop :=
  forall l U f2,
    l ∈ stack fc -> Q U ->
    removed f2 = "" -> slashAdded f2 = false -> protohost f2 = protohost fc ->
    classify (layer_route l) (pathname_of U) = Hit ->
    Q (snd (restore (fst (trim (layer_route l) f2 U)) (snd (trim (layer_route l) f2 U)))).

(** ** Further notions, for the properties of the code beyond the claims *)

(** The code unit [c] occurs in [s]. *)
Fixpoint occurs (c : ascii) (s : string) : bool :=
  match s with
  | EmptyString => false
  | String d s' => bool_decide (d = c) || occurs c s'
  end.

(** What never changes in a frame: its stack, its protohost and its
    [done]; and its index never goes back. *)
Definition frames_kept (fs fs' : list frame) : Prop :=
  forall fid f, fs !! fid = Some f ->
    exists f', fs' !! fid = Some f' /\ stack f' = stack f /\
               protohost f' = protohost f /\ done f' = done f /\
               index f <= index f'.

(** A handler applied right after a hit was given the url that [trim]
    makes of the url examined. *)
Definition urls_trimmed (fs : list frame) (tr : list event) : Prop :=
  forall j fid idx rt u p e a e' args,
    tr !! j = Some (Examined fid idx rt u p e Hit) ->
    tr !! S j = Some (Called fid rt a e' (Invoked args)) ->
    exists f, fs !! fid = Some f /\ url (args_request args) = snd (trim rt f u).

(** The handlers applied in a trace: frame, mount path and arguments. *)
Definition applied (tr : list event) : list (nat * string * callargs) :=
  omap (fun ev => match ev with
                  | Called fid rt _ _ (Invoked a) => Some (fid, rt, a)
                  | _ => None
                  end) tr.

(** [call] leaves the handle [h] out when [err] is passed on. *)
Definition left_out (err : value) (h : handler) : Prop :=
  mode_of (arity h) (Boolean err) = LeftOut.

(** *** The functions refine the transition system *)

Lemma classify_hit route path :
  classify route path = Hit <-> prefix_hit route path = true /\ border_hit route path = true.
Proof.
  unfold classify.
  destruct (prefix_hit route path), (border_hit route path); simpl; split;
    intros H; try discriminate; try (destruct H; discriminate); auto.
Qed.

Section Refinement.

Variable nxt : nat -> value -> state -> option state.

Hypothesis nxt_steps : forall fid err st st',
    nxt fid err st = Some st' -> rtc engine_step st st'.

Lemma run_actions_steps fid acts : forall st st',
    run_actions nxt fid acts st = Some st' -> rtc engine_step st st'.
Proof.
  induction acts as [|a acts IH]; simpl; intros st st' H.
  - injection H as <-. apply rtc_refl.
  - destruct (run_action nxt fid a st) as [st1|] eqn:Ha; simpl in H; [|discriminate].
    apply rtc_trans with st1; [|eauto].
    destruct a; simpl in Ha.
    + injection Ha as <-. apply rtc_once, step_set_url.
    + eauto.
    + injection Ha as <-. apply rtc_once, step_later.
Qed.

Lemma handle_steps stk out st st' :
  handle nxt stk out st = Some st' -> rtc engine_step st st'.
Proof.
  unfold handle. intros H.
  eapply rtc_l; [apply (step_enter stk out)|eauto].
Qed.

Lemma apply_handler_steps h a fid st r :
  apply_handler nxt h a fid st = Some r -> rtc engine_step st (fst r).
Proof.
  destruct h as [len body|len body|rt stk]; simpl; intros H.
  - destruct (run_actions nxt fid (fst (body a)) st) as [st1|] eqn:E; simpl in H; [|discriminate].
    injection H as <-. simpl. eapply run_actions_steps; eauto.
  - destruct (run_actions nxt fid (fst (body a)) st) as [st1|] eqn:E; simpl in H; [|discriminate].
    injection H as <-. simpl. eapply run_actions_steps; eauto.
  - destruct (handle nxt stk (Some (KNext fid)) st) as [st1|] eqn:E; simpl in H; [|discriminate].
    injection H as <-. simpl. eapply handle_steps; eauto.
Qed.

Lemma call_steps h route err fid st st' :
  call nxt h route err fid st = Some st' ->
  rtc engine_step
      (log (Called fid route (arity h) err (decide_call (arity h) err (req st))) st) st'.
Proof.
  unfold call, decide_call, arity_is_4, arity_below_4.
  set (e4 := match arity h with Some n => n =? 4 | None => false end).
  set (b4 := match arity h with Some n => n <? 4 | None => false end).
  destruct (Boolean err && e4) eqn:E1; [|destruct (negb (Boolean err) && b4) eqn:E2].
  - intros H.
    destruct (apply_handler nxt h _ fid _) as [r|] eqn:Ea; simpl in H; [|discriminate].
    apply apply_handler_steps in Ea.
    destruct (snd r); [injection H as <-; exact Ea|].
    eapply rtc_trans; eauto.
  - intros H.
    destruct (apply_handler nxt h _ fid _) as [r|] eqn:Ea; simpl in H; [|discriminate].
    apply apply_handler_steps in Ea.
    destruct (snd r); [injection H as <-; exact Ea|].
    eapply rtc_trans; eauto.
  - eauto.
Qed.

Lemma examine_steps fid err f st st' :
  frames st !! fid = Some f ->
  examine nxt fid err f st = Some st' -> rtc engine_step st st'.
Proof.
  intros Hf. unfold examine.
  destruct (stack f !! index f) as [l|] eqn:Hl.
  - pose proof (classify_hit (layer_route l) (pathname_of (url (req st)))) as Hc.
    destruct (prefix_hit (layer_route l) (pathname_of (url (req st)))) eqn:Hp; simpl.
    + destruct (border_hit (layer_route l) (pathname_of (url (req st)))) eqn:Hb; simpl.
      * destruct (trim (layer_route l) (advance f) (url (req st))) as [ft ut] eqn:Ht.
        intros H. apply call_steps in H.
        eapply rtc_l; [apply (step_hit fid err f l st Hf Hl); tauto|].
        unfold called_at, trimmed, examined_at. rewrite Ht. simpl.
        replace (classify (layer_route l) (pathname_of (url (req st)))) with Hit
          by (symmetry; tauto).
        exact H.
      * intros H.
        eapply rtc_l; [apply (step_miss fid err f l st Hf Hl)|].
        { intros Hh. apply Hc in Hh. destruct Hh; discriminate. }
        unfold examined_at, classify. rewrite Hp, Hb. simpl. eauto.
    + intros H.
      eapply rtc_l; [apply (step_miss fid err f l st Hf Hl)|].
      { intros Hh. apply Hc in Hh. destruct Hh; discriminate. }
      unfold examined_at, classify. rewrite Hp. simpl. eauto.
  - intros H. injection H as <-.
    apply rtc_once. apply (step_exhaust fid err f st Hf Hl).
Qed.

Lemma next_body_steps fid err st st' :
  next_body nxt fid err st = Some st' -> rtc engine_step st st'.
Proof.
  unfold next_body. intros H.
  destruct (frames st !! fid) as [f|] eqn:Hf; simpl in H; [|discriminate].
  destruct (restore f (url (req st))) as [f1 u1] eqn:Hr.
  eapply rtc_l; [apply (step_restore fid f st Hf)|].
  rewrite Hr. simpl.
  eapply examine_steps; [|exact H].
  simpl. apply list_lookup_insert_eq. eapply lookup_lt_Some; eauto.
Qed.

End Refinement.

Lemma next_steps n : forall fid err st st',
    next n fid err st = Some st' -> rtc engine_step st st'.
Proof.
  induction n as [|n IH]; simpl; intros fid err st st' H; [discriminate|].
  eapply next_body_steps; eauto.
Qed.

Lemma engine_any st st' : rtc engine_step st st' -> rtc any_step st st'.
Proof.
  induction 1 as [|x y z Hxy _ IH]; [apply rtc_refl|].
  eapply rtc_l; [left; exact Hxy|exact IH].
Qed.

Lemma loop_steps n : forall st st',
    loop n st = Some st' -> rtc any_step st st'.
Proof.
  induction n as [|n IH]; intros st st' H.
  - simpl in H. destruct (tasks st) as [|[k e] rest]; [|discriminate].
    injection H as <-. apply rtc_refl.
  - simpl in H. destruct (tasks st) as [|[k e] rest] eqn:Ht.
    + injection H as <-. apply rtc_refl.
    + destruct (run_task n k e _) as [st1|] eqn:Hk; simpl in H; [|discriminate].
      eapply rtc_l; [right; apply (step_pop k e rest st Ht)|].
      eapply rtc_trans; [|apply IH; exact H].
      destruct k; simpl in Hk.
      * apply engine_any. eapply next_steps; eauto.
      * injection Hk as <-. apply rtc_once. right.
        apply (step_terminal KFinal e (State (req st) (frames st) rest (trace st))).
      * injection Hk as <-. apply rtc_once. right.
        apply (step_terminal KOut e (State (req st) (frames st) rest (trace st))).
Qed.

Lemma serve_steps n app r st' :
  serve n app r = Some st' ->
  rtc any_step (enter (srv_stack app) None (State r [] [] [])) st'.
Proof.
  unfold serve, handle. intros H.
  destruct (next n _ _ _) as [st1|] eqn:Hn; simpl in H; [|discriminate].
  eapply rtc_trans; [apply engine_any; eapply next_steps; eauto|].
  eapply loop_steps; eauto.
Qed.

Lemma loop_nil n st : tasks st = [] -> loop n st = Some st.
Proof. intros H. destruct n; unfold loop; rewrite H; reflexivity. Qed.

Lemma loop_cons n k e rest st :
  tasks st = (k, e) :: rest ->
  loop (S n) st =
  (st' ← run_task n k e (State (req st) (frames st) rest (trace st)); loop n st').
Proof. intros H. unfold loop at 1. rewrite H. reflexivity. Qed.

(** *** What every trace of the engine satisfies *)

Lemma extends_refl fs : extends fs fs.
Proof. intros fid f H. exists f. auto. Qed.

Lemma extends_insert fs fid f f' :
  fs !! fid = Some f -> stack f' = stack f -> index f <= index f' ->
  extends fs (<[fid := f']> fs).
Proof.
  intros Hf Hs Hi fid0 f0 H0.
  destruct (decide (fid = fid0)) as [->|Hne].
  - exists f'. rewrite list_lookup_insert_eq by (eapply lookup_lt_Some; eauto).
    rewrite Hf in H0. injection H0 as <-. auto.
  - exists f0. rewrite list_lookup_insert_ne by exact Hne. auto.
Qed.

Lemma extends_app fs f : extends fs (fs ++ [f]).
Proof.
  intros fid f0 H0. exists f0. rewrite lookup_app_l by (eapply lookup_lt_Some; eauto).
  auto.
Qed.

Lemma layers_shown_extends fs fs' tr :
  extends fs fs' -> layers_shown fs tr -> layers_shown fs' tr.
Proof.
  intros Hx H i fid idx r u p e v Hi.
  destruct (H _ _ _ _ _ _ _ _ Hi) as (f & l & Hf & Hl & Hlt & Hr).
  destruct (Hx _ _ Hf) as (f' & Hf' & Hs & Hle).
  exists f', l. rewrite Hs. repeat split; auto. lia.
Qed.

Lemma calls_follow_hits_extends fs fs' tr :
  extends fs fs' -> calls_follow_hits fs tr -> calls_follow_hits fs' tr.
Proof.
  intros Hx H i fid r a e o Hi.
  destruct (H _ _ _ _ _ _ Hi) as (j & idx & u & p & f & l & Hj & Hex & Hf & Hl & Ha).
  destruct (Hx _ _ Hf) as (f' & Hf' & Hs & Hle).
  exists j, idx, u, p, f', l. rewrite Hs. auto 10.
Qed.

Lemma lookup_snoc {A} (l : list A) (x y : A) i :
  (l ++ [x]) !! i = Some y -> l !! i = Some y \/ (i = length l /\ y = x).
Proof.
  intros H. apply lookup_app_Some in H as [H|[Hle H]]; [auto|].
  right. destruct (i - length l) as [|k] eqn:E; simpl in H; [|discriminate].
  injection H as <-. split; [lia|reflexivity].
Qed.

Lemma lookup_snoc_old {A} (l : list A) (x y : A) i :
  l !! i = Some y -> (l ++ [x]) !! i = Some y.
Proof. intros H. rewrite lookup_app_l; [exact H|eapply lookup_lt_Some; eauto]. Qed.

Lemma lookup_snoc_new {A} (l : list A) (x : A) :
  (l ++ [x]) !! length l = Some x.
Proof. rewrite lookup_app_r by lia. rewrite Nat.sub_diag. reflexivity. Qed.

(** Logging an event that is neither [Examined] nor [Called]. *)
Lemma Inv_log_terminal k e r st : Inv st -> Inv (log (Terminal k e r) st).
Proof.
  intros [H1 H2 H3 H4 H5]. split; simpl.
  - apply Forall_app. split; [exact H1|]. constructor; [exact I|constructor].
  - intros i fid idx rt u p er v Hi.
    apply lookup_snoc in Hi as [Hi|[_ Hi]]; [eauto|discriminate].
  - intros i fid rt a er o Hi.
    apply lookup_snoc in Hi as [Hi|[_ Hi]]; [|discriminate].
    destruct (H3 _ _ _ _ _ _ Hi) as (j & idx & u & p & f & l & Hj & Hex & Hr).
    exists j, idx, u, p, f, l. split; [exact Hj|].
    split; [apply lookup_snoc_old; exact Hex|exact Hr].
  - intros i j fid idx1 r1 u1 p1 e1 v1 idx2 r2 u2 p2 e2 v2 Hij Hi Hj.
    apply lookup_snoc in Hi as [Hi|[_ Hi]]; [|discriminate].
    apply lookup_snoc in Hj as [Hj|[_ Hj]]; [|discriminate].
    eapply H4; eauto.
  - intros fid f k0 Hf Hk Hl.
    destruct (H5 _ _ _ Hf Hk Hl) as (i & rt & u & p & er & v & Hi).
    exists i, rt, u, p, er, v. apply lookup_snoc_old. exact Hi.
Qed.

Lemma Inv_eq st st' :
  frames st' = frames st -> trace st' = trace st -> Inv st -> Inv st'.
Proof.
  intros Hf Ht [H1 H2 H3 H4 H5]. split; rewrite ?Hf, ?Ht; assumption.
Qed.

Lemma restore_keeps f u :
  stack (fst (restore f u)) = stack f /\ index (fst (restore f u)) = index f /\
  done (fst (restore f u)) = done f /\ protohost (fst (restore f u)) = protohost f.
Proof.
  unfold restore. destruct (slashAdded f), (negb (String.length (removed f) =? 0)); simpl; auto.
Qed.

Lemma trim_keeps route f u :
  stack (fst (trim route f u)) = stack f /\ index (fst (trim route f u)) = index f /\
  done (fst (trim route f u)) = done f /\ protohost (fst (trim route f u)) = protohost f.
Proof.
  unfold trim.
  destruct (negb (String.length route =? 0) && negb (String.eqb route "/")); simpl; auto.
  destruct (String.eqb (protohost f) "" && _); simpl; auto.
Qed.

(** A frame rewritten in place, its index and stack kept. *)
Lemma Inv_set_frame_same fid f f' st :
  frames st !! fid = Some f -> stack f' = stack f -> index f' = index f ->
  Inv st -> Inv (set_frame fid f' st).
Proof.
  intros Hf Hs Hi [H1 H2 H3 H4 H5].
  assert (Hx : extends (frames st) (<[fid := f']> (frames st))).
  { eapply extends_insert; eauto. lia. }
  split; simpl; auto.
  - eapply layers_shown_extends; eauto.
  - eapply calls_follow_hits_extends; eauto.
  - intros fid0 f0 k Hf0 Hk Hl.
    destruct (decide (fid = fid0)) as [->|Hne].
    + rewrite list_lookup_insert_eq in Hf0 by (eapply lookup_lt_Some; eauto).
      injection Hf0 as <-. rewrite Hi in Hk. rewrite Hs in Hl. eauto.
    + rewrite list_lookup_insert_ne in Hf0 by exact Hne. eauto.
Qed.

(** The frame moved past the end of its stack. *)
Lemma Inv_exhaust fid f st :
  frames st !! fid = Some f -> stack f !! index f = None ->
  Inv st -> Inv (set_frame fid (advance f) st).
Proof.
  intros Hf Hn [H1 H2 H3 H4 H5].
  assert (Hx : extends (frames st) (<[fid := advance f]> (frames st))).
  { eapply extends_insert; eauto. simpl. lia. }
  split; simpl; auto.
  - eapply layers_shown_extends; eauto.
  - eapply calls_follow_hits_extends; eauto.
  - intros fid0 f0 k Hf0 Hk Hl.
    destruct (decide (fid = fid0)) as [->|Hne].
    + rewrite list_lookup_insert_eq in Hf0 by (eapply lookup_lt_Some; eauto).
      injection Hf0 as <-. simpl in Hk, Hl.
      apply lookup_ge_None in Hn. apply (H5 _ _ _ Hf); lia.
    + rewrite list_lookup_insert_ne in Hf0 by exact Hne. eauto.
Qed.

(** A new frame. *)
Lemma Inv_enter stk out st : Inv st -> Inv (enter stk out st).
Proof.
  intros [H1 H2 H3 H4 H5]. split; simpl; auto.
  - eapply layers_shown_extends; [apply extends_app|exact H2].
  - eapply calls_follow_hits_extends; [apply extends_app|exact H3].
  - intros fid f k Hf Hk Hl.
    apply lookup_snoc in Hf as [Hf|[_ ->]]; [eauto|].
    simpl in Hk. lia.
Qed.

(** A layer examined: the frame moves on and the event is logged. *)
Lemma Inv_examined fid f f' l err u st :
  frames st !! fid = Some f -> stack f !! index f = Some l ->
  stack f' = stack f -> index f' = S (index f) ->
  Inv st ->
  Inv (log (Examined fid (index f) (layer_route l) u (pathname_of u) err
                     (classify (layer_route l) (pathname_of u)))
           (set_frame fid f' st)).
Proof.
  intros Hf Hl Hs Hi [H1 H2 H3 H4 H5].
  assert (Hx : extends (frames st) (<[fid := f']> (frames st))).
  { eapply extends_insert; eauto. lia. }
  assert (Hnew : <[fid := f']> (frames st) !! fid = Some f').
  { apply list_lookup_insert_eq. eapply lookup_lt_Some; eauto. }
  split; simpl.
  - apply Forall_app. split; [exact H1|].
    constructor; [simpl; auto|constructor].
  - intros i fid0 idx r u0 p e v Hev.
    apply lookup_snoc in Hev as [Hev|[_ Hev]].
    + eapply layers_shown_extends; eauto.
    + injection Hev as -> -> -> -> -> -> ->.
      exists f', l. rewrite Hs, Hi. auto.
  - intros i fid0 r a e o Hev.
    apply lookup_snoc in Hev as [Hev|[_ Hev]]; [|discriminate].
    destruct (calls_follow_hits_extends _ _ _ Hx H3 _ _ _ _ _ _ Hev)
      as (j & idx & u0 & p & f0 & l0 & Hj & Hex & Hr).
    exists j, idx, u0, p, f0, l0. split; [exact Hj|].
    split; [apply lookup_snoc_old; exact Hex|exact Hr].
  - intros i j fid0 idx1 r1 u1 p1 e1 v1 idx2 r2 u2 p2 e2 v2 Hij Hei Hej.
    apply lookup_snoc in Hej as [Hej|[Hjl Hej]].
    + apply lookup_snoc in Hei as [Hei|[Hil _]].
      * eapply H4; eauto.
      * apply lookup_lt_Some in Hej. lia.
    + apply lookup_snoc in Hei as [Hei|[Hil _]]; [|lia].
      injection Hej as -> -> -> -> -> -> ->.
      destruct (H2 _ _ _ _ _ _ _ _ Hei) as (f0 & l0 & Hf0 & _ & Hlt & _).
      rewrite Hf in Hf0. injection Hf0 as <-. exact Hlt.
  - intros fid0 f0 k Hf0 Hk Hlen.
    destruct (decide (fid = fid0)) as [->|Hne].
    + rewrite Hnew in Hf0. injection Hf0 as <-.
      rewrite Hi in Hk. rewrite Hs in Hlen.
      destruct (decide (k = index f)) as [->|Hk'].
      * eexists _, _, _, _, _, _. apply lookup_snoc_new.
      * destruct (H5 _ _ k Hf) as (i & r & u0 & p & e & v & Hev); [lia|lia|].
        exists i, r, u0, p, e, v. apply lookup_snoc_old. exact Hev.
    + rewrite list_lookup_insert_ne in Hf0 by exact Hne.
      destruct (H5 _ _ k Hf0 Hk Hlen) as (i & r & u0 & p & e & v & Hev).
      exists i, r, u0, p, e, v. apply lookup_snoc_old. exact Hev.
Qed.

(** [call] entered right after a hit. *)
Lemma Inv_called fid idx f l u p err rq st :
  last (trace st) = Some (Examined fid idx (layer_route l) u p err Hit) ->
  frames st !! fid = Some f -> stack f !! idx = Some l ->
  Inv st ->
  Inv (log (Called fid (layer_route l) (arity (layer_handle l)) err
                   (decide_call (arity (layer_handle l)) err rq)) st).
Proof.
  intros Hlast Hf Hl [H1 H2 H3 H4 H5].
  split; simpl; auto.
  - apply Forall_app. split; [exact H1|].
    constructor; [simpl; eauto|constructor].
  - intros i fid0 idx0 r u0 p0 e v Hev.
    apply lookup_snoc in Hev as [Hev|[_ Hev]]; [eauto|discriminate].
  - intros i fid0 r a e o Hev.
    apply lookup_snoc in Hev as [Hev|[Hil Hev]].
    + destruct (H3 _ _ _ _ _ _ Hev) as (j & idx0 & u0 & p0 & f0 & l0 & Hj & Hex & Hr).
      exists j, idx0, u0, p0, f0, l0. split; [exact Hj|].
      split; [apply lookup_snoc_old; exact Hex|exact Hr].
    + injection Hev as -> -> -> -> ->.
      rewrite last_lookup in Hlast.
      destruct (length (trace st)) as [|m] eqn:Hlen.
      { destruct (trace st); [discriminate|simpl in Hlen; lia]. }
      simpl in Hlast.
      exists m, idx, u, p, f, l. split; [exact Hil|].
      split; [apply lookup_snoc_old; exact Hlast|auto].
  - intros i j fid0 idx1 r1 u1 p1 e1 v1 idx2 r2 u2 p2 e2 v2 Hij Hei Hej.
    apply lookup_snoc in Hei as [Hei|[_ Hei]]; [|discriminate].
    apply lookup_snoc in Hej as [Hej|[_ Hej]]; [|discriminate].
    eapply H4; eauto.
  - intros fid0 f0 k Hf0 Hk Hlen.
    destruct (H5 _ _ k Hf0 Hk Hlen) as (i & r & u0 & p0 & e & v & Hev).
    exists i, r, u0, p0, e, v. apply lookup_snoc_old. exact Hev.
Qed.

Lemma engine_step_Inv st st' : engine_step st st' -> Inv st -> Inv st'.
Proof.
  intros Hstep HI. destruct Hstep as
      [fid f st Hf|fid err f st Hf Hn|fid err f l st Hf Hl Hc
      |fid err f l st Hf Hl Hc|u st|fid e st|stk out st].
  - destruct (restore_keeps f (url (req st))) as (Hs & Hi & _).
    eapply Inv_set_frame_same; eauto.
    eapply Inv_eq; [| |exact HI]; reflexivity.
  - eapply Inv_eq; [| |eapply (Inv_exhaust fid f st); eauto]; reflexivity.
  - unfold examined_at. eapply Inv_examined; eauto.
  - destruct (trim_keeps (layer_route l) (advance f) (url (req st))) as (Hs & Hi & _).
    set (ft := fst (trim (layer_route l) (advance f) (url (req st)))) in *.
    assert (HI3 : Inv (trimmed fid f l err st)).
    { eapply (Inv_eq (log (examined_at fid f l err st) (set_frame fid ft st)));
        [| |unfold examined_at; eapply Inv_examined; eauto].
      - unfold trimmed. simpl. fold ft. apply list_insert_insert_eq.
      - reflexivity. }
    unfold called_at.
    eapply (Inv_called fid (index f) ft l (url (req st))
                       (pathname_of (url (req st))) err); eauto.
    + unfold trimmed. simpl. rewrite last_snoc. unfold examined_at. rewrite Hc.
      reflexivity.
    + unfold trimmed. simpl. fold ft. rewrite list_insert_insert_eq.
      apply list_lookup_insert_eq. eapply lookup_lt_Some; eauto.
    + rewrite Hs. exact Hl.
  - eapply Inv_eq; [| |exact HI]; reflexivity.
  - eapply Inv_eq; [| |exact HI]; reflexivity.
  - apply Inv_enter. exact HI.
Qed.

Lemma turn_step_Inv st st' : turn_step st st' -> Inv st -> Inv st'.
Proof.
  intros Hstep HI. destruct Hstep as [k e rest st Ht|k e st].
  - eapply Inv_eq; [| |exact HI]; reflexivity.
  - apply Inv_log_terminal. exact HI.
Qed.

Lemma steps_Inv st st' : rtc any_step st st' -> Inv st -> Inv st'.
Proof.
  induction 1 as [|x y z [Hxy|Hxy] _ IH]; intros HI; [exact HI| |].
  - apply IH. eapply engine_step_Inv; eauto.
  - apply IH. eapply turn_step_Inv; eauto.
Qed.

Lemma Inv_start stk out r : Inv (enter stk out (State r [] [] [])).
Proof.
  apply Inv_enter. split; simpl.
  - constructor.
  - intros i fid idx rt u p e v H. rewrite lookup_nil in H. discriminate.
  - intros i fid rt a e o H. rewrite lookup_nil in H. discriminate.
  - intros i j fid idx1 r1 u1 p1 e1 v1 idx2 r2 u2 p2 e2 v2 _ H.
    rewrite lookup_nil in H. discriminate.
  - intros fid f k H. rewrite lookup_nil in H. discriminate.
Qed.

(** Every trace of a served request satisfies the invariant. *)
Lemma serve_Inv n app r st' : serve n app r = Some st' -> Inv st'.
Proof.
  intros H. eapply steps_Inv; [eapply serve_steps; eauto|apply Inv_start].
Qed.

(** ** Dispatch by arity *)

Lemma decide_call_cases a err rq :
  (decide_call a err rq = Invoked (ErrorArgs err rq) /\
     Boolean err = true /\ a = Some 4) \/
  (decide_call a err rq = Invoked (RequestArgs rq) /\
     Boolean err = false /\ exists m, a = Some m /\ m < 4) \/
  (decide_call a err rq = NotInvoked /\
     ~ (Boolean err = true /\ a = Some 4) /\
     ~ (Boolean err = false /\ exists m, a = Some m /\ m < 4)).
Proof.
  unfold decide_call.
  destruct (Boolean err) eqn:Hb; simpl.
  - destruct a as [m|]; [destruct (Nat.eqb_spec m 4) as [->|Hne]|].
    + left. auto.
    + right. right. split; [reflexivity|]. split.
      * intros [_ H]. congruence.
      * intros [H _]. discriminate.
    + right. right. split; [reflexivity|]. split.
      * intros [_ H]. discriminate.
      * intros [H _]. discriminate.
  - destruct a as [m|]; [destruct (Nat.ltb_spec m 4) as [Hlt|Hge]|].
    + right. left. eauto.
    + right. right. split; [reflexivity|]. split.
      * intros [H _]. discriminate.
      * intros [_ (m' & H & Hlt)]. injection H as <-. lia.
    + right. right. split; [reflexivity|]. split.
      * intros [H _]. discriminate.
      * intros [_ (m' & H & _)]. discriminate.
Qed.

Lemma call_unfold nxt h route err fid st :
  call nxt h route err fid st =
  match decide_call (arity h) err (req st) with
  | Invoked a =>
      r ← apply_handler nxt h a fid
            (log (Called fid route (arity h) err (Invoked a)) st);
      match snd r with
      | Return => Some (fst r)
      | Throw e => nxt fid e (fst r)
      end
  | NotInvoked => nxt fid err (log (Called fid route (arity h) err NotInvoked) st)
  end.
Proof.
  unfold call, decide_call, arity_is_4, arity_below_4.
  destruct (Boolean err && _); [reflexivity|].
  destruct (negb (Boolean err) && _); reflexivity.
Qed.

(** C1. In every traversal, each entry into [call] comes from a layer that
    was hit and shows the arity of that layer's handle; a handle applied
    with an error as first argument has arity 4, an error was being
    passed on and it is that error; a handle applied without has an
    arity below 4 and no error was being passed on; a handle is left out
    exactly when its arity does not fit. [call] then applies the handle
    when the arity fits, and otherwise re-enters the continuation of the
    same frame with the error it was given. *)
Theorem arity_dispatch n app r st' i fid rt a err o :
  serve n app r = Some st' ->
  trace st' !! i = Some (Called fid rt a err o) ->
  (exists j idx u p f l,
      i = S j /\ trace st' !! j = Some (Examined fid idx rt u p err Hit) /\
      frames st' !! fid = Some f /\ stack f !! idx = Some l /\
      a = arity (layer_handle l)) /\
  (forall e rq, o = Invoked (ErrorArgs e rq) ->
                a = Some 4 /\ Boolean err = true /\ e = err) /\
  (forall rq, o = Invoked (RequestArgs rq) ->
              Boolean err = false /\ exists m, a = Some m /\ m < 4) /\
  (o = NotInvoked ->
   ~ (Boolean err = true /\ a = Some 4) /\
   ~ (Boolean err = false /\ exists m, a = Some m /\ m < 4)) /\
  (forall nxt h route e fid0 st,
      match decide_call (arity h) e (req st) with
      | Invoked args =>
          call nxt h route e fid0 st =
          (x ← apply_handler nxt h args fid0
                 (log (Called fid0 route (arity h) e (Invoked args)) st);
           match snd x with
           | Return => Some (fst x)
           | Throw e' => nxt fid0 e' (fst x)
           end)
      | NotInvoked =>
          call nxt h route e fid0 st =
          nxt fid0 e (log (Called fid0 route (arity h) e NotInvoked) st)
      end).
Proof.
  intros Hs Hev. pose proof (serve_Inv _ _ _ _ Hs) as [H1 _ H3 _ _].
  split; [exact (H3 _ _ _ _ _ _ Hev)|].
  assert (Hsound : sound (Called fid rt a err o)).
  { rewrite Forall_forall in H1. apply H1. eapply list_elem_of_lookup_2; eauto. }
  destruct Hsound as [rq0 Ho].
  destruct (decide_call_cases a err rq0) as
      [(Hd & Hb & Ha)|[(Hd & Hb & Ha)|(Hd & Hn1 & Hn2)]]; rewrite Hd in Ho; subst o.
  - split; [|split; [|split]].
    + intros e rq [= -> ->]. auto.
    + intros rq [=].
    + intros [=].
    + intros nxt h route e fid0 st. rewrite call_unfold.
      destruct (decide_call (arity h) e (req st)); reflexivity.
  - split; [|split; [|split]].
    + intros e rq [=].
    + intros rq [= ->]. auto.
    + intros [=].
    + intros nxt h route e fid0 st. rewrite call_unfold.
      destruct (decide_call (arity h) e (req st)); reflexivity.
  - split; [|split; [|split]].
    + intros e rq [=].
    + intros rq [=].
    + auto.
    + intros nxt h route e fid0 st. rewrite call_unfold.
      destruct (decide_call (arity h) e (req st)); reflexivity.
Qed.

(** ** The prefix and border tests *)

Lemma border_hit_spec route path :
  border_hit route path = true <->
  char_at (String.length route) path = None \/
  char_at (String.length route) path = Some "/"%char \/
  char_at (String.length route) path = Some "."%char.
Proof.
  unfold border_hit. destruct (char_at (String.length route) path) as [c|].
  - rewrite orb_true_iff, !bool_decide_eq_true. split.
    + intros [->| ->]; auto.
    + intros [H|[H|H]]; [discriminate|injection H as ->; auto|injection H as ->; auto].
  - split; auto.
Qed.

Lemma substr_to_toLowerCase n : forall s,
    substr_to n (toLowerCase s) = toLowerCase (substr_to n s).
Proof.
  induction n as [|n IH]; intros [|c s]; simpl; try reflexivity.
  rewrite IH. reflexivity.
Qed.

Lemma next_unfold n fid err st f :
  frames st !! fid = Some f ->
  next (S n) fid err st =
  examine (next n) fid err (fst (restore f (url (req st))))
          (set_frame fid (fst (restore f (url (req st))))
                     (set_url (snd (restore f (url (req st)))) st)).
Proof.
  intros Hf. simpl. unfold next_body. rewrite Hf. simpl.
  destruct (restore f (url (req st))). reflexivity.
Qed.

(** C2. In every traversal, [call] is entered for a layer with mount path
    [rt] only from an examination of that layer in which the first
    [length rt] characters of the lowered pathname are the lowered [rt] and
    the character of the pathname at index [length rt] is absent, ['/'] or
    ['.']. Mount path [/adm] is hit by [/adm], [/adm/x] and [/adm.json] and
    not by [/administration]. A layer that is not hit is skipped: [next]
    re-enters itself on the following layer with the same error. *)
Theorem prefix_and_border n app r st' i fid rt a err o :
  serve n app r = Some st' ->
  trace st' !! i = Some (Called fid rt a err o) ->
  (exists j idx u p f l,
      i = S j /\ trace st' !! j = Some (Examined fid idx rt u p err Hit) /\
      frames st' !! fid = Some f /\ stack f !! idx = Some l /\ rt = layer_route l /\
      p = pathname_of u /\
      toLowerCase (substr_to (String.length rt) p) = toLowerCase rt /\
      (char_at (String.length rt) p = None \/
       char_at (String.length rt) p = Some "/"%char \/
       char_at (String.length rt) p = Some "."%char)) /\
  (classify "/adm" "/adm" = Hit /\ classify "/adm" "/adm/x" = Hit /\
   classify "/adm" "/adm.json" = Hit /\
   classify "/adm" "/administration" = BoundaryMiss) /\
  (forall m fid0 e st f l,
      frames st !! fid0 = Some f ->
      stack f !! index f = Some l ->
      let f1 := fst (restore f (url (req st))) in
      let u1 := snd (restore f (url (req st))) in
      classify (layer_route l) (pathname_of u1) <> Hit ->
      next (S m) fid0 e st =
      next m fid0 e
           (log (Examined fid0 (index f) (layer_route l) u1 (pathname_of u1) e
                          (classify (layer_route l) (pathname_of u1)))
                (set_frame fid0 (advance f1) (set_frame fid0 f1 (set_url u1 st))))).
Proof.
  intros Hs Hev. pose proof (serve_Inv _ _ _ _ Hs) as [H1 H2 H3 _ _].
  split; [|split].
  - destruct (H3 _ _ _ _ _ _ Hev) as (j & idx & u & p & f & l & Hj & Hex & Hf & Hl & Ha).
    destruct (H2 _ _ _ _ _ _ _ _ Hex) as (f0 & l0 & Hf0 & Hl0 & _ & Hr).
    rewrite Hf in Hf0. injection Hf0 as <-. rewrite Hl in Hl0. injection Hl0 as <-.
    assert (Hsound : sound (Examined fid idx rt u p err Hit)).
    { rewrite Forall_forall in H1. apply H1. eapply list_elem_of_lookup_2; eauto. }
    destruct Hsound as [Hp Hc]. symmetry in Hc. apply classify_hit in Hc as [Hpre Hbor].
    exists j, idx, u, p, f, l. repeat (split; [assumption|]).
    split; [rewrite <- substr_to_toLowerCase; apply String.eqb_eq; exact Hpre|].
    apply border_hit_spec. exact Hbor.
  - repeat split; reflexivity.
  - intros m fid0 e st f l Hf Hl f1 u1 Hc.
    rewrite (next_unfold _ _ _ _ _ Hf). fold f1 u1. unfold examine.
    destruct (restore_keeps f (url (req st))) as (Hst & Hi & _). fold f1 in Hst, Hi.
    rewrite Hst, Hi, Hl. simpl.
    unfold classify in *. fold u1.
    destruct (prefix_hit (layer_route l) (pathname_of u1)); simpl; [|reflexivity].
    destruct (border_hit (layer_route l) (pathname_of u1)); simpl; [|reflexivity].
    contradiction Hc. reflexivity.
Qed.

(** ** Faults thrown by a handler *)

Lemma run_actions_app nxt fid a1 a2 : forall st,
    run_actions nxt fid (a1 ++ a2) st =
    (st1 ← run_actions nxt fid a1 st; run_actions nxt fid a2 st1).
Proof.
  induction a1 as [|a a1 IH]; simpl; intros st; [reflexivity|].
  destruct (run_action nxt fid a st) as [st1|]; simpl; [apply IH|reflexivity].
Qed.

Lemma call_throw nxt h h' acts e route err fid st :
  arity h' = arity h ->
  (forall a st0,
      apply_handler nxt h a fid st0 =
      (st1 ← run_actions nxt fid (acts a) st0; Some (st1, Throw (e a)))) ->
  (forall a st0,
      apply_handler nxt h' a fid st0 =
      (st1 ← run_actions nxt fid (acts a ++ [CallNext (e a)]) st0; Some (st1, Return))) ->
  call nxt h route err fid st = call nxt h' route err fid st /\
  match decide_call (arity h) err (req st) with
  | Invoked a =>
      call nxt h route err fid st =
      (st1 ← run_actions nxt fid (acts a)
             (log (Called fid route (arity h) err (Invoked a)) st);
       nxt fid (e a) st1)
  | NotInvoked => True
  end.
Proof.
  intros Ha Hh Hh'. rewrite !call_unfold, Ha.
  destruct (decide_call (arity h) err (req st)) as [a|]; [|auto].
  rewrite Hh, Hh', run_actions_app.
  destruct (run_actions nxt fid (acts a) _) as [st1|]; simpl; [|auto].
  destruct (nxt fid (e a) st1); simpl; auto.
Qed.

(** C4. A handler that throws [e] after some actions is dealt with by
    [call] exactly as the handler that does the same actions, calls the
    continuation with [e] and returns: whatever the arity, the error being
    passed on and the state, for functions and for Endpoints. When the
    handle is applied, the result is that of its actions followed by the
    continuation of the frame entered with [e], which replaces the error
    that was being passed on. *)
Theorem thrown_fault_is_passed_on
        nxt len (acts : callargs -> list action) (e : callargs -> value)
        route err fid st :
  let thrower := fun a => (acts a, Throw (e a)) in
  let caller := fun a => (acts a ++ [CallNext (e a)], Return) in
  (call nxt (Fn len thrower) route err fid st =
   call nxt (Fn len caller) route err fid st /\
   match decide_call (arity (Fn len thrower)) err (req st) with
   | Invoked a =>
       call nxt (Fn len thrower) route err fid st =
       (st1 ← run_actions nxt fid (acts a)
              (log (Called fid route (arity (Fn len thrower)) err (Invoked a)) st);
        nxt fid (e a) st1)
   | NotInvoked => True
   end) /\
  (call nxt (EndpointObj len thrower) route err fid st =
   call nxt (EndpointObj len caller) route err fid st /\
   match decide_call (arity (EndpointObj len thrower)) err (req st) with
   | Invoked a =>
       call nxt (EndpointObj len thrower) route err fid st =
       (st1 ← run_actions nxt fid (acts a)
              (log (Called fid route (arity (EndpointObj len thrower)) err (Invoked a)) st);
        nxt fid (e a) st1)
   | NotInvoked => True
   end).
Proof.
  intros thrower caller. split.
  - apply call_throw; [reflexivity| |]; intros a st0; simpl;
      destruct (run_actions nxt fid _ st0); reflexivity.
  - apply call_throw; [reflexivity| |]; intros a st0; simpl;
      destruct (run_actions nxt fid _ st0); reflexivity.
Qed.

(** ** Handles that declare no parameter *)

(** C10. A function of declared length 0 has no arity. [call] never
    applies it: with or without an error it re-enters the continuation of
    the frame with the error it was given. In every traversal the entry
    into [call] for a layer holding such a function shows it left out. *)
Theorem zero_arity_never_invoked body :
  arity (Fn 0 body) = None /\
  (forall nxt route err fid st,
      call nxt (Fn 0 body) route err fid st =
      nxt fid err (log (Called fid route None err NotInvoked) st)) /\
  (forall n app r st' fid rt a err o j idx u p f v,
      serve n app r = Some st' ->
      trace st' !! S j = Some (Called fid rt a err o) ->
      trace st' !! j = Some (Examined fid idx rt u p err v) ->
      frames st' !! fid = Some f ->
      stack f !! idx = Some (rt, Fn 0 body) ->
      a = None /\ o = NotInvoked).
Proof.
  split; [reflexivity|]. split.
  - intros nxt route err fid st. rewrite call_unfold. simpl.
    unfold decide_call. destruct (Boolean err); reflexivity.
  - intros n app r st' fid rt a err o j idx u p f v Hs Hc Hex Hf Hl.
    pose proof (serve_Inv _ _ _ _ Hs) as [H1 _ H3 _ _].
    destruct (H3 _ _ _ _ _ _ Hc) as (j' & idx' & u' & p' & f' & l' & Hj & Hex' & Hf' & Hl' & Ha).
    injection Hj as <-. rewrite Hex in Hex'. injection Hex' as <- <- <- _.
    rewrite Hf in Hf'. injection Hf' as <-.
    pose proof (eq_trans (eq_sym Hl') Hl) as [= ->].
    simpl in Ha. subst a. split; [reflexivity|].
    assert (Hsound : sound (Called fid rt None err o)).
    { rewrite Forall_forall in H1. apply H1. eapply list_elem_of_lookup_2; eauto. }
    destruct Hsound as [rq ->]. unfold decide_call. destruct (Boolean err); reflexivity.
Qed.

(** ** Registration *)

Lemma last_char_slice s c :
  last_char s = Some c -> s = slice_0_m1 s +:+ String c "".
Proof.
  induction s as [|d s IH]; simpl; [discriminate|].
  destruct s as [|d' s'].
  - intros [= ->]. reflexivity.
  - intros H.
    change (String d (String d' s') =
            String d (slice_0_m1 (String d' s') +:+ String c "")).
    f_equal. apply IH. exact H.
Qed.

Lemma append_cons c (a b : string) : String c a +:+ b = String c (a +:+ b).
Proof. reflexivity. Qed.

Lemma append_nil (b : string) : "" +:+ b = b.
Proof. reflexivity. Qed.

Lemma append_assoc (a b c : string) : (a +:+ b) +:+ c = a +:+ (b +:+ c).
Proof.
  induction a as [|x a IH]; [reflexivity|].
  rewrite !append_cons, IH. reflexivity.
Qed.

(** C6, as the code has it. [use] with a mount path and a middleware stores
    one layer at the end of the stack. Its mount path is the given one
    without its last character when that character is a slash, the root
    path ["/"] included, which is stored as the empty string; it is the
    given one otherwise. So the stored path ends with a slash only when the
    given path ended with two. *)
Theorem use_strips_one_slash s m this :
  exists p h,
    use (RString s) (Some m) this =
      Some (Server (srv_route this) (srv_stack this ++ [(p, h)])) /\
    wrap (RString s) s m = Some h /\
    (s = p +:+ "/" \/ (s = p /\ last_char s <> Some "/"%char)) /\
    (last_char p = Some "/"%char -> exists q, s = q +:+ "//") /\
    (s = "/" -> p = "").
Proof.
  assert (Hw : exists h, wrap (RString s) s m = Some h).
  { destruct m; simpl; eauto. }
  destruct Hw as [h Hw].
  exists (strip_trailing_slash s), h.
  split; [unfold use; simpl; rewrite Hw; reflexivity|]. split; [exact Hw|].
  assert (H : s = strip_trailing_slash s +:+ "/" \/
              (s = strip_trailing_slash s /\ last_char s <> Some "/"%char)).
  { unfold strip_trailing_slash. case_bool_decide as Hl.
    - left. apply last_char_slice. exact Hl.
    - right. auto. }
  split; [exact H|]. split.
  - intros Hp. destruct H as [H|[H Hn]].
    + exists (slice_0_m1 (strip_trailing_slash s)).
      rewrite H at 1. rewrite (last_char_slice _ _ Hp) at 1.
      rewrite append_assoc. reflexivity.
    + rewrite <- H in Hp. contradiction.
  - intros ->. reflexivity.
Qed.

(** C7, as the code has it. [use] with a function, a server or an
    [http.Server] as first argument takes it as the handler, whatever the
    second argument, and stores the layer with the empty mount path: the
    default ["/"] with its slash stripped. *)
Theorem use_default_route m fn this :
  strip_trailing_slash "/" = "" /\
  match m with
  | MEndpoint _ _ => True
  | _ =>
      exists h,
        wrap (RMiddleware m) "/" m = Some h /\
        use (RMiddleware m) fn this =
          Some (Server (srv_route this) (srv_stack this ++ [("", h)]))
  end.
Proof.
  split; [reflexivity|]. destruct m; simpl; eauto.
Qed.

(** ** The original url *)

Lemma decide_call_request a e rq args :
  decide_call a e rq = Invoked args -> args_request args = rq.
Proof.
  unfold decide_call.
  destruct (Boolean e && _); [intros [= <-]; reflexivity|].
  destruct (negb (Boolean e) && _); [intros [= <-]; reflexivity|discriminate].
Qed.

Lemma captured_kept r o : originalUrl r = Some o -> o <> "" -> captured r = o.
Proof.
  unfold captured. intros -> Ho.
  destruct (String.eqb_spec o ""); [contradiction|reflexivity].
Qed.

Lemma original_kept_eq o st st' :
  originalUrl (req st') = originalUrl (req st) -> trace st' = trace st ->
  original_kept o st -> original_kept o st'.
Proof. unfold original_kept. intros -> ->. auto. Qed.

Lemma engine_step_original o st st' :
  o <> "" -> engine_step st st' -> original_kept o st -> original_kept o st'.
Proof.
  intros Ho Hstep HK. destruct Hstep as
      [fid f st Hf|fid err f st Hf Hn|fid err f l st Hf Hl Hc
      |fid err f l st Hf Hl Hc|u st|fid e st|stk out st];
    try (eapply original_kept_eq; [| |exact HK]; reflexivity).
  - destruct HK as [H1 H2]. split; [exact H1|].
    intros i fid0 rt a e args Hev. simpl in Hev.
    apply lookup_snoc in Hev as [Hev|[_ Hev]]; [eauto|discriminate].
  - destruct HK as [H1 H2]. split; [exact H1|].
    intros i fid0 rt a e args Hev. simpl in Hev.
    apply lookup_snoc in Hev as [Hev|[_ Hev]].
    + apply lookup_snoc in Hev as [Hev|[_ Hev]]; [eauto|discriminate].
    + unfold called_at in Hev. injection Hev as _ _ _ _ Hd. symmetry in Hd.
      apply decide_call_request in Hd. rewrite Hd. exact H1.
  - destruct HK as [H1 H2]. split; [|exact H2].
    simpl. rewrite (captured_kept _ _ H1 Ho). reflexivity.
Qed.

Lemma turn_step_original o st st' :
  turn_step st st' -> original_kept o st -> original_kept o st'.
Proof.
  intros Hstep HK. destruct Hstep as [k e rest st Ht|k e st].
  - eapply original_kept_eq; [| |exact HK]; reflexivity.
  - destruct HK as [H1 H2]. split; [exact H1|].
    intros i fid0 rt a e0 args Hev. simpl in Hev.
    apply lookup_snoc in Hev as [Hev|[_ Hev]]; [eauto|discriminate].
Qed.

Lemma steps_original o st st' :
  o <> "" -> rtc any_step st st' -> original_kept o st -> original_kept o st'.
Proof.
  intros Ho. induction 1 as [|x y z [Hxy|Hxy] _ IH]; intros HK; [exact HK| |].
  - apply IH. eapply engine_step_original; eauto.
  - apply IH. eapply turn_step_original; eauto.
Qed.

(** C9, as the code has it. [handle] stores [req.originalUrl || req.url]:
    the url when nothing was recorded or the empty string was, and the
    value recorded otherwise. Once a non-empty original url is recorded, it
    stays for the whole traversal: it is the one in the final request and
    the one every handler was applied to, in the frame that recorded it and
    in every dispatch nested in it. *)
Theorem original_url_kept n app r st' o :
  serve n app r = Some st' ->
  captured r = o ->
  o <> "" ->
  originalUrl (req st') = Some o /\
  (forall i fid rt a e args,
      trace st' !! i = Some (Called fid rt a e (Invoked args)) ->
      originalUrl (args_request args) = Some o) /\
  (forall stk out st,
      originalUrl (req st) = Some o ->
      originalUrl (req (enter stk out st)) = Some o) /\
  (forall stk out st,
      originalUrl (req st) = None \/ originalUrl (req st) = Some "" ->
      originalUrl (req (enter stk out st)) = Some (url (req st))).
Proof.
  intros Hs Hc Ho.
  assert (HK : original_kept o st').
  { eapply steps_original; [exact Ho|eapply serve_steps; eauto|].
    split; [simpl; rewrite Hc; reflexivity|].
    intros i fid rt a e args Hev. simpl in Hev. rewrite lookup_nil in Hev. discriminate. }
  destruct HK as [H1 H2]. split; [exact H1|]. split; [exact H2|]. split.
  - intros stk out st Hst. simpl. rewrite (captured_kept _ _ Hst Ho). reflexivity.
  - intros stk out st [Hst|Hst]; simpl; unfold captured; rewrite Hst; reflexivity.
Qed.

(** ** Exhaustion *)

Lemma terminals_snoc tr ev :
  terminals (tr ++ [ev]) =
  terminals tr ++ match ev with Terminal k e _ => [(k, e)] | _ => [] end.
Proof.
  unfold terminals. rewrite omap_app. simpl. destruct ev; reflexivity.
Qed.

Lemma quiet_refl st : quiet st st.
Proof. split; [exists []; rewrite app_nil_r; reflexivity|reflexivity]. Qed.

Lemma quiet_trans st1 st2 st3 : quiet st1 st2 -> quiet st2 st3 -> quiet st1 st3.
Proof.
  intros [[n1 H1] T1] [[n2 H2] T2]. split.
  - exists (n1 ++ n2). rewrite H2, H1, app_assoc. reflexivity.
  - congruence.
Qed.

Lemma engine_step_quiet st st' : engine_step st st' -> quiet st st'.
Proof.
  intros Hstep. destruct Hstep as
      [fid f st Hf|fid err f st Hf Hn|fid err f l st Hf Hl Hc
      |fid err f l st Hf Hl Hc|u st|fid e st|stk out st]; split; simpl;
    rewrite ?terminals_snoc, ?app_nil_r; try reflexivity;
    try (exists []; rewrite app_nil_r; reflexivity); eexists; reflexivity.
Qed.

Lemma engine_steps_quiet st st' : rtc engine_step st st' -> quiet st st'.
Proof.
  induction 1 as [|x y z Hxy _ IH]; [apply quiet_refl|].
  eapply quiet_trans; [apply engine_step_quiet; exact Hxy|exact IH].
Qed.

(** ** More fuel changes nothing *)

Section Monotone.

Variables nxt nxt' : nat -> value -> state -> option state.

Hypothesis nxt_below : below nxt nxt'.

Lemma run_actions_mono fid acts : forall st st',
    run_actions nxt fid acts st = Some st' -> run_actions nxt' fid acts st = Some st'.
Proof.
  induction acts as [|a acts IH]; simpl; intros st st' H; [exact H|].
  destruct (run_action nxt fid a st) as [st1|] eqn:Ha; simpl in H; [|discriminate].
  assert (Ha' : run_action nxt' fid a st = Some st1).
  { destruct a; simpl in *; auto. }
  rewrite Ha'. simpl. auto.
Qed.

Lemma apply_handler_mono h a fid st r :
  apply_handler nxt h a fid st = Some r -> apply_handler nxt' h a fid st = Some r.
Proof.
  destruct h as [len body|len body|rt stk]; simpl; intros H.
  - destruct (run_actions nxt fid _ st) as [st1|] eqn:E; simpl in H; [|discriminate].
    rewrite (run_actions_mono _ _ _ _ E). exact H.
  - destruct (run_actions nxt fid _ st) as [st1|] eqn:E; simpl in H; [|discriminate].
    rewrite (run_actions_mono _ _ _ _ E). exact H.
  - unfold handle in *.
    destruct (nxt _ _ _) as [st1|] eqn:E; simpl in H; [|discriminate].
    rewrite (nxt_below _ _ _ _ E). exact H.
Qed.

Lemma call_mono h route err fid st st' :
  call nxt h route err fid st = Some st' -> call nxt' h route err fid st = Some st'.
Proof.
  rewrite !call_unfold. destruct (decide_call (arity h) err (req st)) as [a|]; [|auto].
  intros H.
  destruct (apply_handler nxt h a fid _) as [r|] eqn:E; simpl in H; [|discriminate].
  rewrite (apply_handler_mono _ _ _ _ _ E). simpl.
  destruct (snd r); auto.
Qed.

Lemma examine_mono fid err f st st' :
  examine nxt fid err f st = Some st' -> examine nxt' fid err f st = Some st'.
Proof.
  unfold examine. destruct (stack f !! index f) as [l|]; [|auto].
  destruct (negb (prefix_hit _ _)); [auto|].
  destruct (negb (border_hit _ _)); [auto|].
  destruct (trim _ _ _). apply call_mono.
Qed.

Lemma next_body_mono fid err st st' :
  next_body nxt fid err st = Some st' -> next_body nxt' fid err st = Some st'.
Proof.
  unfold next_body. destruct (frames st !! fid) as [f|]; simpl; [|auto].
  destruct (restore f (url (req st))). apply examine_mono.
Qed.

End Monotone.

Lemma next_S n : below (next n) (next (S n)).
Proof.
  induction n as [|n IH]; intros fid e st st' H; [discriminate|].
  simpl in H. change (next_body (next (S n)) fid e st = Some st').
  eapply next_body_mono; eauto.
Qed.

Lemma next_mono n m : n <= m -> below (next n) (next m).
Proof.
  induction 1 as [|m _ IH]; intros fid e st st' H; [exact H|].
  apply next_S. apply IH. exact H.
Qed.

Lemma loop_mono n : forall m st st',
    n <= m -> loop n st = Some st' -> loop m st = Some st'.
Proof.
  induction n as [|n IH]; intros m st st' Hle H.
  - simpl in H. destruct (tasks st) as [|[k e] rest] eqn:Ht; [|discriminate].
    destruct m; simpl; rewrite Ht; exact H.
  - destruct m as [|m]; [lia|]. simpl in *.
    destruct (tasks st) as [|[k e] rest]; [exact H|].
    destruct (run_task n k e _) as [st1|] eqn:Hk; simpl in H; [|discriminate].
    assert (Hk' : run_task m k e (State (req st) (frames st) rest (trace st)) = Some st1).
    { destruct k; simpl in *; auto. eapply next_mono; [|exact Hk]. lia. }
    rewrite Hk'. simpl. apply IH; [lia|exact H].
Qed.

Lemma serve_mono n m app r st' :
  n <= m -> serve n app r = Some st' -> serve m app r = Some st'.
Proof.
  unfold serve, handle. intros Hle H.
  destruct (next n _ _ _) as [st1|] eqn:E; simpl in H; [|discriminate].
  rewrite (next_mono n m Hle _ _ _ _ E). simpl. eapply loop_mono; eauto.
Qed.

(** ** Requests that differ in what the engine does not read *)

Lemma alike_set_url u st1 st2 : alike st1 st2 -> alike (set_url u st1) (set_url u st2).
Proof. intros [H1 H2 H3 H4 H5]. split; simpl; auto. Qed.

Lemma alike_set_frame fid f st1 st2 :
  blind_stack (stack f) -> alike st1 st2 ->
  alike (set_frame fid f st1) (set_frame fid f st2).
Proof.
  intros Hb [H1 H2 H3 H4 H5]. split; simpl; auto.
  - rewrite H2. reflexivity.
  - apply Forall_insert; assumption.
Qed.

Lemma alike_log ev1 ev2 st1 st2 :
  erase_event ev1 = erase_event ev2 -> alike st1 st2 ->
  alike (log ev1 st1) (log ev2 st2).
Proof.
  intros He [H1 H2 H3 H4 H5]. split; simpl; auto.
  unfold shown in *. rewrite !map_app, H4. simpl. rewrite He. reflexivity.
Qed.

Lemma alike_defer k e st1 st2 : alike st1 st2 -> alike (defer k e st1) (defer k e st2).
Proof. intros [H1 H2 H3 H4 H5]. split; simpl; auto. rewrite H3. reflexivity. Qed.

Lemma alike_enter stk out st1 st2 :
  blind_stack stk -> alike st1 st2 -> alike (enter stk out st1) (enter stk out st2).
Proof.
  intros Hb [H1 H2 H3 H4 H5]. split; simpl; auto.
  - rewrite H1, H2. reflexivity.
  - apply Forall_app. split; [exact H5|]. constructor; [exact Hb|constructor].
Qed.

Section Alike.

Variable nxt : nat -> value -> state -> option state.

Hypothesis nxt_alike : forall fid e st1 st2 st1',
    alike st1 st2 -> nxt fid e st1 = Some st1' ->
    exists st2', nxt fid e st2 = Some st2' /\ alike st1' st2'.

Lemma run_actions_alike fid acts : forall st1 st2 st1',
    alike st1 st2 -> run_actions nxt fid acts st1 = Some st1' ->
    exists st2', run_actions nxt fid acts st2 = Some st2' /\ alike st1' st2'.
Proof.
  induction acts as [|a acts IH]; simpl; intros st1 st2 st1' Ha H.
  - injection H as <-. eauto.
  - destruct (run_action nxt fid a st1) as [sa|] eqn:E; simpl in H; [|discriminate].
    assert (exists sb, run_action nxt fid a st2 = Some sb /\ alike sa sb) as (sb & Eb & Hab).
    { destruct a; simpl in *.
      - injection E as <-. eexists. split; [reflexivity|]. apply alike_set_url. exact Ha.
      - eauto.
      - injection E as <-. eexists. split; [reflexivity|]. apply alike_defer. exact Ha. }
    rewrite Eb. simpl. eauto.
Qed.

Lemma handle_alike stk out st1 st2 st1' :
  blind_stack stk -> alike st1 st2 ->
  handle nxt stk out st1 = Some st1' ->
  exists st2', handle nxt stk out st2 = Some st2' /\ alike st1' st2'.
Proof.
  unfold handle. intros Hb Ha H.
  rewrite <- (alike_frames _ _ Ha).
  eapply nxt_alike; [|exact H]. apply alike_enter; assumption.
Qed.

Lemma apply_handler_alike h a a' fid st1 st2 r1 :
  blind h -> same_view a a' -> alike st1 st2 ->
  apply_handler nxt h a fid st1 = Some r1 ->
  exists r2, apply_handler nxt h a' fid st2 = Some r2 /\
             alike (fst r1) (fst r2) /\ snd r1 = snd r2.
Proof.
  intros Hb Hv Ha H. destruct Hb as [n b Hb|n b Hb|rt stk Hb]; simpl in *.
  - rewrite <- (Hb a a' Hv).
    destruct (run_actions nxt fid _ st1) as [sa|] eqn:E; simpl in H; [|discriminate].
    injection H as <-.
    destruct (run_actions_alike _ _ _ _ _ Ha E) as (sb & Eb & Hab).
    rewrite Eb. simpl. eauto.
  - rewrite <- (Hb a a' Hv).
    destruct (run_actions nxt fid _ st1) as [sa|] eqn:E; simpl in H; [|discriminate].
    injection H as <-.
    destruct (run_actions_alike _ _ _ _ _ Ha E) as (sb & Eb & Hab).
    rewrite Eb. simpl. eauto.
  - destruct (handle nxt stk _ st1) as [sa|] eqn:E; simpl in H; [|discriminate].
    injection H as <-.
    destruct (handle_alike _ _ _ _ _ Hb Ha E) as (sb & Eb & Hab).
    rewrite Eb. simpl. eauto.
Qed.

Lemma call_alike h route err fid st1 st2 st1' :
  blind h -> alike st1 st2 ->
  call nxt h route err fid st1 = Some st1' ->
  exists st2', call nxt h route err fid st2 = Some st2' /\ alike st1' st2'.
Proof.
  intros Hb Ha. rewrite !call_unfold. unfold decide_call.
  pose proof (alike_url _ _ Ha) as Hu.
  assert (Hgo : forall a a',
             same_view a a' -> erase_args a = erase_args a' ->
             (r ← apply_handler nxt h a fid
                  (log (Called fid route (arity h) err (Invoked a)) st1);
              match snd r with Return => Some (fst r) | Throw e => nxt fid e (fst r) end)
             = Some st1' ->
             exists st2',
               (r ← apply_handler nxt h a' fid
                    (log (Called fid route (arity h) err (Invoked a')) st2);
                match snd r with Return => Some (fst r) | Throw e => nxt fid e (fst r) end)
               = Some st2' /\ alike st1' st2').
  { intros a a' Hv He H.
    destruct (apply_handler nxt h a fid _) as [r1|] eqn:E; simpl in H; [|discriminate].
    eapply (apply_handler_alike h a a' fid _
              (log (Called fid route (arity h) err (Invoked a')) st2)) in E;
      [|exact Hb|exact Hv|apply alike_log; [simpl; rewrite He; reflexivity|exact Ha]].
    destruct E as (r2 & E2 & Hr & Hfin). rewrite E2. simpl. rewrite <- Hfin.
    destruct (snd r1); [injection H as <-; eauto|eauto]. }
  destruct (Boolean err && _).
  - apply Hgo; [simpl; auto|simpl; unfold erase_request; rewrite Hu; reflexivity].
  - destruct (negb (Boolean err) && _).
    + apply Hgo; [simpl; auto|simpl; unfold erase_request; rewrite Hu; reflexivity].
    + intros H. eapply nxt_alike; [|exact H]. apply alike_log; [reflexivity|exact Ha].
Qed.

Lemma examine_alike fid err f st1 st2 st1' :
  blind_stack (stack f) -> alike st1 st2 ->
  examine nxt fid err f st1 = Some st1' ->
  exists st2', examine nxt fid err f st2 = Some st2' /\ alike st1' st2'.
Proof.
  intros Hb Ha. unfold examine. rewrite <- (alike_url _ _ Ha).
  assert (Ha2 : alike (set_frame fid (advance f) st1) (set_frame fid (advance f) st2))
    by (apply alike_set_frame; assumption).
  destruct (stack f !! index f) as [l|] eqn:Hl.
  - destruct (negb (prefix_hit _ _)).
    { intros H. eapply nxt_alike; [|exact H]. apply alike_log; [reflexivity|exact Ha2]. }
    destruct (negb (border_hit _ _)).
    { intros H. eapply nxt_alike; [|exact H]. apply alike_log; [reflexivity|exact Ha2]. }
    destruct (trim_keeps (layer_route l) (advance f) (url (req st1))) as (Hst & _).
    destruct (trim _ _ _) as [ft ut]. simpl in Hst.
    apply call_alike.
    + unfold blind_stack in Hb. rewrite Forall_forall in Hb.
      apply (Hb l). eapply list_elem_of_lookup_2; eauto.
    + apply alike_log; [reflexivity|]. apply alike_set_frame; [rewrite Hst; exact Hb|].
      apply alike_set_url. exact Ha2.
  - intros H. injection H as <-. eexists. split; [reflexivity|].
    apply alike_defer. exact Ha2.
Qed.

Lemma next_body_alike fid err st1 st2 st1' :
  alike st1 st2 ->
  next_body nxt fid err st1 = Some st1' ->
  exists st2', next_body nxt fid err st2 = Some st2' /\ alike st1' st2'.
Proof.
  intros Ha. unfold next_body.
  rewrite <- (alike_frames _ _ Ha), <- (alike_url _ _ Ha).
  destruct (frames st1 !! fid) as [f|] eqn:Hf; simpl; [|discriminate].
  assert (Hb : blind_stack (stack f)).
  { pose proof (alike_blind _ _ Ha) as H. rewrite Forall_forall in H.
    apply H. eapply list_elem_of_lookup_2; eauto. }
  destruct (restore_keeps f (url (req st1))) as (Hst & _).
  destruct (restore f (url (req st1))) as [f1 u1]. simpl in Hst.
  rewrite <- Hst in Hb.
  apply examine_alike; [exact Hb|].
  apply alike_set_frame; [exact Hb|]. apply alike_set_url. exact Ha.
Qed.

End Alike.

Lemma next_alike n : forall fid e st1 st2 st1',
    alike st1 st2 -> next n fid e st1 = Some st1' ->
    exists st2', next n fid e st2 = Some st2' /\ alike st1' st2'.
Proof.
  induction n as [|n IH]; intros fid e st1 st2 st1' Ha H; [discriminate|].
  change (next_body (next n) fid e st1 = Some st1') in H.
  change (exists st2', next_body (next n) fid e st2 = Some st2' /\ alike st1' st2').
  eapply next_body_alike; eauto.
Qed.

Lemma loop_alike n : forall st1 st2 st1',
    alike st1 st2 -> loop n st1 = Some st1' ->
    exists st2', loop n st2 = Some st2' /\ alike st1' st2'.
Proof.
  induction n as [|n IH]; intros st1 st2 st1' Ha H.
  - unfold loop in *. rewrite <- (alike_tasks _ _ Ha).
    destruct (tasks st1) as [|[k e] rest]; [|discriminate].
    injection H as <-. eauto.
  - destruct (tasks st1) as [|[k e] rest] eqn:Ht.
    + rewrite (loop_nil _ _ Ht) in H. injection H as <-.
      rewrite loop_nil by (rewrite <- (alike_tasks _ _ Ha); exact Ht). eauto.
    + rewrite (loop_cons _ _ _ _ _ Ht) in H.
      rewrite (loop_cons n k e rest st2) by (rewrite <- (alike_tasks _ _ Ha); exact Ht).
      destruct (run_task n k e _) as [sa|] eqn:E; simpl in H; [|discriminate].
      assert (Hpop : alike (State (req st1) (frames st1) rest (trace st1))
                           (State (req st2) (frames st2) rest (trace st2))).
      { destruct Ha as [H1 H2 H3 H4 H5]. split; simpl; auto. }
      assert (exists sb, run_task n k e (State (req st2) (frames st2) rest (trace st2))
                         = Some sb /\ alike sa sb) as (sb & Eb & Hab).
      { destruct k; simpl in *.
        - eapply next_alike; eauto.
        - injection E as <-. eexists. split; [reflexivity|].
          apply alike_log; [|exact Hpop]. simpl. unfold erase_request.
          rewrite (alike_url _ _ Ha). reflexivity.
        - injection E as <-. eexists. split; [reflexivity|].
          apply alike_log; [|exact Hpop]. simpl. unfold erase_request.
          rewrite (alike_url _ _ Ha). reflexivity. }
      rewrite Eb. simpl. eauto.
Qed.

(** Requests with the same url, served by handlers that look at nothing
    else, leave the same trace. *)
Lemma serve_alike n app r1 r2 st1 :
  url r1 = url r2 -> blind_stack (srv_stack app) ->
  serve n app r1 = Some st1 ->
  exists st2, serve n app r2 = Some st2 /\
              shown (trace st1) = shown (trace st2) /\ frames st1 = frames st2.
Proof.
  intros Hu Hb. unfold serve. intros H.
  destruct (handle (next n) _ _ (State r1 [] [] [])) as [sa|] eqn:E; simpl in H;
    [|discriminate].
  eapply (handle_alike (next n) (next_alike n) _ _ _ (State r2 [] [] [])) in E;
    [|exact Hb|split; simpl; auto].
  destruct E as (sb & Eb & Hab). rewrite Eb. simpl.
  destruct (loop_alike n _ _ _ Hab H) as (st2 & E2 & Ha2).
  exists st2. split; [exact E2|]. split; [apply Ha2|apply Ha2].
Qed.

(** ** Order of examination *)

Lemma extends_trans fs1 fs2 fs3 : extends fs1 fs2 -> extends fs2 fs3 -> extends fs1 fs3.
Proof.
  intros H12 H23 fid f Hf.
  destruct (H12 _ _ Hf) as (f2 & Hf2 & Hs2 & Hi2).
  destruct (H23 _ _ Hf2) as (f3 & Hf3 & Hs3 & Hi3).
  exists f3. split; [exact Hf3|]. split; [congruence|lia].
Qed.

Lemma any_step_extends st st' : any_step st st' -> extends (frames st) (frames st').
Proof.
  intros [Hstep|Hstep].
  - destruct Hstep as
        [fid f st Hf|fid err f st Hf Hn|fid err f l st Hf Hl Hc
        |fid err f l st Hf Hl Hc|u st|fid e st|stk out st]; simpl;
      try apply extends_refl.
    + destruct (restore_keeps f (url (req st))) as (Hs & Hi & _).
      eapply extends_insert; eauto. lia.
    + eapply extends_insert; eauto. simpl. lia.
    + eapply extends_insert; eauto. simpl. lia.
    + destruct (trim_keeps (layer_route l) (advance f) (url (req st))) as (Hs & Hi & _).
      rewrite list_insert_insert_eq. eapply extends_insert; eauto.
      rewrite Hi. simpl. lia.
    + apply extends_app.
  - destruct Hstep; simpl; apply extends_refl.
Qed.

Lemma steps_extends st st' : rtc any_step st st' -> extends (frames st) (frames st').
Proof.
  induction 1 as [|x y z Hxy _ IH]; [apply extends_refl|].
  eapply extends_trans; [apply any_step_extends; exact Hxy|exact IH].
Qed.

Lemma decide_call_mode a e rq : outcome_mode (decide_call a e rq) = mode_of a (Boolean e).
Proof.
  unfold decide_call, mode_of.
  destruct (Boolean e && _); [reflexivity|].
  destruct (negb (Boolean e) && _); reflexivity.
Qed.

(** C8. Two traversals of the same registry for the same request end in
    the same state, with the same trace; a traversal for another request
    with the same url leaves the same trace, up to what the requests in it
    carry besides the url, when the handlers look at nothing else in the
    request. The frame of the server walks the server's stack. A frame
    examines the layers of its stack in increasing order of index and
    passes over none; the verdict on a layer is [classify] of its mount
    path and of the pathname of the url at that moment; [call] is entered
    only from a hit, and whether it applies the handle, and how, is
    [mode_of] the arity of the handle and of [Boolean(err)]. *)
Theorem order_determinism n app r st' :
  serve n app r = Some st' ->
  (forall m st'', serve m app r = Some st'' -> st'' = st') /\
  (forall r2,
      url r2 = url r -> blind_stack (srv_stack app) ->
      exists st2, serve n app r2 = Some st2 /\
                  shown (trace st2) = shown (trace st') /\ frames st2 = frames st') /\
  (exists f, frames st' !! 0 = Some f /\ stack f = srv_stack app) /\
  (forall i j fid idx1 r1 u1 p1 e1 v1 idx2 r2 u2 p2 e2 v2,
      i < j ->
      trace st' !! i = Some (Examined fid idx1 r1 u1 p1 e1 v1) ->
      trace st' !! j = Some (Examined fid idx2 r2 u2 p2 e2 v2) ->
      idx1 < idx2) /\
  (forall j fid k r2 u2 p2 e2 v2,
      trace st' !! j = Some (Examined fid (S k) r2 u2 p2 e2 v2) ->
      exists i r1 u1 p1 e1 v1,
        i < j /\ trace st' !! i = Some (Examined fid k r1 u1 p1 e1 v1)) /\
  (forall i fid idx rt u p e v,
      trace st' !! i = Some (Examined fid idx rt u p e v) ->
      exists f l, frames st' !! fid = Some f /\ stack f !! idx = Some l /\
                  rt = layer_route l /\ p = pathname_of u /\ v = classify rt p) /\
  (forall i fid rt a e o,
      trace st' !! i = Some (Called fid rt a e o) ->
      outcome_mode o = mode_of a (Boolean e) /\
      exists j idx u p f l,
        i = S j /\ trace st' !! j = Some (Examined fid idx rt u p e Hit) /\
        frames st' !! fid = Some f /\ stack f !! idx = Some l /\
        a = arity (layer_handle l)).
Proof.
  intros Hs. pose proof (serve_Inv _ _ _ _ Hs) as [H1 H2 H3 H4 H5].
  rewrite Forall_forall in H1.
  split; [|split; [|split; [|split; [|split; [|split]]]]].
  - intros m st'' Hm.
    pose proof (serve_mono n (max n m) app r st' (Nat.le_max_l _ _) Hs) as E1.
    pose proof (serve_mono m (max n m) app r st'' (Nat.le_max_r _ _) Hm) as E2.
    congruence.
  - intros r2 Hu Hb.
    destruct (serve_alike n app r r2 st' (eq_sym Hu) Hb Hs) as (st2 & E2 & Ht & Hf).
    exists st2. auto.
  - pose proof (steps_extends _ _ (serve_steps _ _ _ _ Hs)) as Hx.
    destruct (Hx 0 (Frame 0 (protohost_of (url r)) "" false (srv_stack app) KFinal))
      as (f & Hf & Hst & _); [reflexivity|].
    exists f. auto.
  - exact H4.
  - intros j fid k r2 u2 p2 e2 v2 Hj.
    destruct (H2 _ _ _ _ _ _ _ _ Hj) as (f & l & Hf & Hl & Hlt & _).
    apply lookup_lt_Some in Hl.
    destruct (H5 fid f k Hf) as (i & r1 & u1 & p1 & e1 & v1 & Hi); [lia|lia|].
    exists i, r1, u1, p1, e1, v1. split; [|exact Hi].
    destruct (Nat.lt_trichotomy i j) as [Hlt'|[->|Hgt]]; [exact Hlt'| |].
    + rewrite Hj in Hi. injection Hi as Hk. lia.
    + pose proof (H4 _ _ _ _ _ _ _ _ _ _ _ _ _ _ _ Hgt Hj Hi). lia.
  - intros i fid idx rt u p e v Hi.
    destruct (H2 _ _ _ _ _ _ _ _ Hi) as (f & l & Hf & Hl & _ & Hr).
    destruct (H1 _ (list_elem_of_lookup_2 _ _ _ Hi)) as [Hp Hv].
    exists f, l. auto.
  - intros i fid rt a e o Hi. split; [|exact (H3 _ _ _ _ _ _ Hi)].
    destruct (H1 _ (list_elem_of_lookup_2 _ _ _ Hi)) as [rq ->].
    apply decide_call_mode.
Qed.

(** ** Trimming and restoring the url *)

Lemma substr_from_0 s : substr_from 0 s = s.
Proof. destruct s; reflexivity. Qed.

Lemma substr_from_append a b : substr_from (String.length a) (a +:+ b) = b.
Proof.
  induction a as [|c a IH]; [apply substr_from_0|].
  rewrite append_cons. simpl. exact IH.
Qed.

Lemma substr_from_add n : forall m s,
    substr_from (n + m) s = substr_from m (substr_from n s).
Proof.
  induction n as [|n IH]; intros m s.
  - rewrite substr_from_0. reflexivity.
  - destruct s as [|c s]; [destruct m; reflexivity|apply IH].
Qed.

Lemma substr_from_prefix a seg rest n :
  String.length seg = n ->
  substr_from (String.length a + n) (a +:+ seg +:+ rest) = rest.
Proof.
  intros <-. rewrite substr_from_add, substr_from_append. apply substr_from_append.
Qed.

Lemma length_0_empty s : (String.length s =? 0) = true <-> s = "".
Proof.
  destruct s; simpl; split; intros H; try reflexivity; discriminate.
Qed.

(** [restore] always leaves a frame with nothing to put back. *)
Lemma restore_clean f u : fst (restore f u) = clean f.
Proof.
  unfold restore, clean.
  destruct (slashAdded f); destruct (String.length (removed f) =? 0) eqn:E; simpl;
    try reflexivity; apply length_0_empty in E; rewrite E; reflexivity.
Qed.

Lemma restore_of_clean f u :
  removed f = "" -> slashAdded f = false -> restore f u = (f, u).
Proof.
  intros Hr Hs. unfold restore. rewrite Hr, Hs. simpl. destruct f; simpl in *.
  subst. reflexivity.
Qed.

(** The law of one frame: what [restore] gives back after [trim] is the
    url with the trimmed segment spelled as the route. *)
Lemma trim_restore f route seg rest :
  slashAdded f = false ->
  String.length seg = String.length route ->
  trimmable route = true ->
  let t := trim route f (protohost f +:+ seg +:+ rest) in
  (snd t = protohost f +:+ rest \/ (protohost f = "" /\ snd t = "/" +:+ rest)) /\
  restore (fst t) (snd t) = (clean f, protohost f +:+ route +:+ rest).
Proof.
  intros Hs Hlen Ht. unfold trimmable in Ht. unfold trim. rewrite Ht.
  rewrite (substr_from_prefix _ _ _ _ Hlen).
  assert (Hne : (String.length route =? 0) = false).
  { apply andb_true_iff in Ht as [Ht _]. apply negb_true_iff in Ht. exact Ht. }
  destruct (String.eqb_spec (protohost f) "") as [Hp|Hp]; simpl.
  - destruct (bool_decide (char_at 0 (protohost f +:+ rest) = Some "/"%char)); simpl.
    + split; [left; reflexivity|].
      unfold restore, clean. simpl. rewrite Hs, Hne. simpl.
      rewrite substr_from_append. reflexivity.
    + split; [right; rewrite Hp; auto|].
      unfold restore, clean. simpl. rewrite Hne. simpl.
      rewrite Hp. simpl. rewrite !append_nil. reflexivity.
  - split; [left; reflexivity|].
    unfold restore, clean. simpl. rewrite Hs, Hne. simpl.
    rewrite substr_from_append. reflexivity.
Qed.

Lemma trim_untrimmable f route u : trimmable route = false -> trim route f u = (f, u).
Proof. unfold trimmable, trim. intros ->. reflexivity. Qed.

Lemma trim_restore_spelled f l U :
  removed f = "" -> slashAdded f = false ->
  (trimmable (layer_route l) = true -> exists rest, U = protohost f +:+ layer_route l +:+ rest) ->
  snd (restore (fst (trim (layer_route l) f U)) (snd (trim (layer_route l) f U))) = U.
Proof.
  intros Hr Hs Hsp. destruct (trimmable (layer_route l)) eqn:Ht.
  - destruct (Hsp eq_refl) as [rest ->].
    destruct (trim_restore f (layer_route l) (layer_route l) rest Hs eq_refl Ht) as [_ H].
    rewrite H. reflexivity.
  - rewrite (trim_untrimmable _ _ _ Ht). simpl.
    rewrite (restore_of_clean _ _ Hr Hs). reflexivity.
Qed.

Lemma handed_over_pre Q c k st st2 st' :
  tasks st2 = tasks st ->
  (forall fid, fid <> c -> frames st2 !! fid = frames st !! fid) ->
  handed_over Q c k st2 st' -> handed_over Q c k st st'.
Proof.
  intros Ht Hfr (Hu & [e' He] & Hf). split; [exact Hu|]. split.
  - exists e'. rewrite He, Ht. reflexivity.
  - intros fid Hne. rewrite (Hf _ Hne). auto.
Qed.

Lemma forward_run Q m : forall c e st st' fc,
    frames st !! c = Some fc ->
    Q (snd (restore fc (url (req st)))) ->
    (forall l, l ∈ stack fc -> forwards (layer_handle l)) ->
    kept_by_trim Q fc ->
    next m c e st = Some st' ->
    handed_over Q c (done fc) st st'.
Proof.
  induction m as [|m IH]; intros c e st st' fc Hfc HQ Hall Hkeep Hn; [discriminate|].
  rewrite (next_unfold _ _ _ _ _ Hfc) in Hn. rewrite restore_clean in Hn.
  set (U := snd (restore fc (url (req st)))) in *.
  assert (Hlt : c < length (frames st)) by (eapply lookup_lt_Some; eauto).
  unfold examine in Hn. simpl in Hn.
  assert (Hpre : forall stx fx,
             frames stx !! c = Some fx ->
             stack fx = stack fc -> done fx = done fc -> protohost fx = protohost fc ->
             Q (snd (restore fx (url (req stx)))) ->
             tasks stx = tasks st ->
             (forall fid, fid <> c -> frames stx !! fid = frames st !! fid) ->
             forall e0 st0, next m c e0 stx = Some st0 ->
                            handed_over Q c (done fc) st st0).
  { intros stx fx Hfx Hsx Hdx Hpx Hrx Htx Hox e0 st0 H0.
    eapply (handed_over_pre Q c (done fc) st stx); [exact Htx|exact Hox|].
    rewrite <- Hdx. eapply IH; [exact Hfx|exact Hrx| | |exact H0].
    - rewrite Hsx. exact Hall.
    - unfold kept_by_trim. rewrite Hsx, Hpx. exact Hkeep. }
  destruct (stack fc !! index fc) as [l|] eqn:Hl.
  - pose proof (list_elem_of_lookup_2 _ _ _ Hl) as Hin.
    pose proof (Hall l Hin) as Hfw.
    set (f2 := advance (clean fc)) in *.
    assert (Hmiss : forall ev e0 st0,
               next m c e0 (log ev (set_frame c f2 (set_frame c (clean fc) (set_url U st))))
               = Some st0 ->
               handed_over Q c (done fc) st st0).
    { intros ev e0 st0 H0.
      eapply (Hpre _ f2); [| | | | | | |exact H0]; try reflexivity.
      - simpl. apply list_lookup_insert_eq. rewrite !length_insert. exact Hlt.
      - change (Q (snd (restore f2 U))).
        rewrite restore_of_clean by reflexivity. exact HQ.
      - intros fid Hne. simpl. rewrite !list_lookup_insert_ne by congruence. reflexivity. }
    destruct (prefix_hit (layer_route l) (pathname_of U)) eqn:Hp; simpl in Hn;
      [|eapply Hmiss; exact Hn].
    destruct (border_hit (layer_route l) (pathname_of U)) eqn:Hb; simpl in Hn;
      [|eapply Hmiss; exact Hn].
    assert (Hc : classify (layer_route l) (pathname_of U) = Hit)
      by (apply classify_hit; auto).
    pose proof (Hkeep l U f2 Hin HQ eq_refl eq_refl eq_refl Hc) as Hrt.
    destruct (trim (layer_route l) f2 U) as [ft ut] eqn:Ht.
    destruct (trim_keeps (layer_route l) f2 U) as (Hst & _ & Hdt & Hpt).
    rewrite Ht in Hst, Hdt, Hpt. simpl in Hst, Hdt, Hpt, Hrt.
    assert (Hhit : forall ev1 ev2 e0 st0,
               next m c e0
                    (log ev2 (log ev1 (set_frame c ft (set_url ut
                       (set_frame c f2 (set_frame c (clean fc) (set_url U st)))))))
               = Some st0 ->
               handed_over Q c (done fc) st st0).
    { intros ev1 ev2 e0 st0 H0.
      eapply (Hpre _ ft); [| | | | | | |exact H0]; try assumption; try reflexivity.
      - simpl. apply list_lookup_insert_eq. rewrite !length_insert. exact Hlt.
      - intros fid Hne. simpl. rewrite !list_lookup_insert_ne by congruence. reflexivity. }
    rewrite call_unfold in Hn.
    destruct (decide_call (arity (layer_handle l)) e _) as [a|];
      [|eapply Hhit; exact Hn].
    destruct (layer_handle l) as [len body|len body|rt' stk']; simpl in Hfw;
      [| |contradiction].
    + simpl in Hn. destruct (Hfw a) as [[e' Hbody]|[e' Hbody]]; rewrite Hbody in Hn;
        simpl in Hn.
      * destruct (next m c e' _) as [st1|] eqn:H1; simpl in Hn; [|discriminate].
        injection Hn as <-. eapply Hhit; exact H1.
      * eapply Hhit; exact Hn.
    + simpl in Hn. destruct (Hfw a) as [[e' Hbody]|[e' Hbody]]; rewrite Hbody in Hn;
        simpl in Hn.
      * destruct (next m c e' _) as [st1|] eqn:H1; simpl in Hn; [|discriminate].
        injection Hn as <-. eapply Hhit; exact H1.
      * eapply Hhit; exact Hn.
  - injection Hn as <-. split; [exact HQ|]. split.
    + exists e. reflexivity.
    + intros fid Hne. simpl. rewrite !list_lookup_insert_ne by congruence. reflexivity.
Qed.

Lemma spelled_kept_by_trim U fc :
  (forall l, l ∈ stack fc -> spelled (protohost fc) U l) ->
  kept_by_trim (fun u => u = U) fc.
Proof.
  intros Hsp l U' f2 Hin -> Hr Hs Hp Hc.
  apply trim_restore_spelled; [exact Hr|exact Hs|].
  intros Ht. rewrite Hp. exact (Hsp l Hin Hc Ht).
Qed.

Local Arguments next : simpl never.

Local Arguments loop : simpl never.

(** Layers that only pass control on take one unit of fuel each. *)
Lemma forward_total k : forall c e st fc,
    frames st !! c = Some fc ->
    length (stack fc) <= index fc + k ->
    (forall l, l ∈ stack fc -> forwards (layer_handle l)) ->
    exists st', next (S k) c e st = Some st'.
Proof.
  induction k as [|k IH]; intros c e st fc Hfc Hlen Hall;
    rewrite (next_unfold _ _ _ _ _ Hfc), restore_clean;
    assert (Hlt : c < length (frames st)) by (eapply lookup_lt_Some; eauto);
    unfold examine; simpl;
    destruct (stack fc !! index fc) as [l|] eqn:Hl; eauto.
  - apply lookup_lt_Some in Hl. lia.
  - pose proof (Hall l (list_elem_of_lookup_2 _ _ _ Hl)) as Hfw.
    assert (Hgo : forall stx fx e0,
               frames stx !! c = Some fx -> stack fx = stack fc ->
               index fx = S (index fc) ->
               exists st', next (S k) c e0 stx = Some st').
    { intros stx fx e0 Hfx Hsx Hix. eapply IH; [exact Hfx| |].
      - rewrite Hsx, Hix. lia.
      - rewrite Hsx. exact Hall. }
    set (U := snd (restore fc (url (req st)))).
    set (f2 := advance (clean fc)).
    assert (Hin2 : forall stx, frames stx = frames st ->
                               <[c := f2]> (<[c := clean fc]> (frames stx)) !! c = Some f2).
    { intros stx ->. apply list_lookup_insert_eq. rewrite !length_insert. exact Hlt. }
    destruct (prefix_hit (layer_route l) (pathname_of U)); simpl;
      [|eapply (Hgo _ f2); [apply (Hin2 st eq_refl)|reflexivity|reflexivity]].
    destruct (border_hit (layer_route l) (pathname_of U)); simpl;
      [|eapply (Hgo _ f2); [apply (Hin2 st eq_refl)|reflexivity|reflexivity]].
    destruct (trim (layer_route l) f2 U) as [ft ut] eqn:Ht.
    destruct (trim_keeps (layer_route l) f2 U) as (Hst & Hit & _).
    rewrite Ht in Hst, Hit. simpl in Hst, Hit.
    assert (Hin3 : forall (fs : list frame), length fs = length (frames st) ->
                                             <[c := ft]> fs !! c = Some ft).
    { intros fs Hfs. apply list_lookup_insert_eq. rewrite Hfs. exact Hlt. }
    rewrite call_unfold.
    destruct (decide_call (arity (layer_handle l)) e _) as [a|].
    + destruct (layer_handle l) as [len body|len body|rt' stk']; simpl in Hfw;
        [| |contradiction]; simpl;
        (destruct (Hfw a) as [[e' Hbody]|[e' Hbody]]; rewrite Hbody; simpl;
         [match goal with
          | |- context [next (S k) c e' ?sx] =>
              destruct (Hgo sx ft e') as [st1 H1];
              [simpl; apply Hin3; rewrite !length_insert; reflexivity
              |exact Hst|exact Hit|rewrite H1; simpl; eauto]
          end
         |eapply (Hgo _ ft); [|exact Hst|exact Hit];
          simpl; apply Hin3; rewrite !length_insert; reflexivity]).
    + eapply (Hgo _ ft); [|exact Hst|exact Hit].
      simpl. apply Hin3. rewrite !length_insert. reflexivity.
Qed.

(** A server whose layers only pass control on: the traversal ends, and
    it invokes the final handler once, from the event loop. *)
Lemma serve_forwarders app r :
  (forall l, l ∈ srv_stack app -> forwards (layer_handle l)) ->
  let N := S (S (length (srv_stack app))) in
  exists st1 st' e',
    handle (next N) (srv_stack app) None (State r [] [] []) = Some st1 /\
    tasks st1 = [(KFinal, e')] /\ terminals (trace st1) = [] /\
    serve N app r = Some st' /\
    terminals (trace st') = [(KFinal, e')] /\ tasks st' = [].
Proof.
  intros Hall N.
  set (st0 := enter (srv_stack app) None (State r [] [] [])).
  set (f0 := Frame 0 (protohost_of (url r)) "" false (srv_stack app) KFinal).
  assert (Hf0 : frames st0 !! 0 = Some f0) by reflexivity.
  destruct (forward_total (S (length (srv_stack app))) 0 VUndefined st0 f0 Hf0)
    as [st1 H1]; [simpl; lia|exact Hall|].
  change (next N 0 VUndefined st0 = Some st1) in H1.
  pose proof (forward_run (fun _ => True) N 0 VUndefined st0 st1 f0 Hf0 I Hall) as Hrun.
  destruct Hrun as (_ & [e' He] & _); [intros l U f2 _ _ _ _ _ _; exact I|exact H1|].
  simpl in He.
  pose proof (engine_steps_quiet _ _ (next_steps _ _ _ _ _ H1)) as [_ Hq].
  simpl in Hq.
  exists st1, (log (Terminal KFinal e' (req st1))
                   (State (req st1) (frames st1) [] (trace st1))), e'.
  split; [exact H1|]. split; [exact He|]. split; [exact Hq|]. split.
  - unfold serve, handle.
    change (enter (srv_stack app) None (State r [] [] [])) with st0.
    change (length (frames (State r [] [] []))) with 0.
    rewrite H1. simpl.
    unfold N. rewrite (loop_cons _ KFinal e' [] st1 He). simpl.
    apply loop_nil. reflexivity.
  - split; [|reflexivity]. simpl. rewrite terminals_snoc, Hq. reflexivity.
Qed.

(** C5. When [next] finds no layer at the index of its frame, it returns at
    once: the frame has moved on, the request has its url restored, and one
    task is added at the end of the queue, [done] with the error that
    [next] was given; nothing else changes, and no terminal continuation
    has been invoked. No call of [next], however many layers it skips and
    handlers it runs before it returns, invokes a terminal continuation or
    takes a task off the queue: that is left to the event loop, where
    running the task invokes [done] once with that error. So when [handle]
    returns to the server, no terminal continuation has been invoked yet.
    For a server whose layers only pass control on, the traversal ends
    with the final handler invoked exactly once, after [handle] has
    returned. *)
Theorem exhaustion_defers n fid err st f :
  frames st !! fid = Some f ->
  stack f !! index f = None ->
  let f1 := fst (restore f (url (req st))) in
  let u1 := snd (restore f (url (req st))) in
  let st' := defer (done f) err
                   (set_frame fid (advance f1) (set_frame fid f1 (set_url u1 st))) in
  (next (S n) fid err st = Some st' /\
   tasks st' = tasks st ++ [(done f, err)] /\
   trace st' = trace st) /\
  (forall m st0,
      match done f with
      | KNext p => run_task m (done f) err st0 = next m p err st0
      | k => run_task m k err st0 = Some (log (Terminal k err (req st0)) st0) /\
             terminals (trace (log (Terminal k err (req st0)) st0)) =
             terminals (trace st0) ++ [(k, err)]
      end) /\
  (forall m fid0 e0 st0 st1,
      next m fid0 e0 st0 = Some st1 ->
      (exists new, tasks st1 = tasks st0 ++ new) /\
      terminals (trace st1) = terminals (trace st0)) /\
  (forall m stk out r st1,
      handle (next m) stk out (State r [] [] []) = Some st1 ->
      terminals (trace st1) = []) /\
  (forall app r,
      (forall l, l ∈ srv_stack app -> forwards (layer_handle l)) ->
      exists st1 st' e',
        handle (next (S (S (length (srv_stack app))))) (srv_stack app) None
               (State r [] [] []) = Some st1 /\
        tasks st1 = [(KFinal, e')] /\ terminals (trace st1) = [] /\
        serve (S (S (length (srv_stack app)))) app r = Some st' /\
        terminals (trace st') = [(KFinal, e')] /\ tasks st' = []).
Proof.
  intros Hf Hn f1 u1 st'. split; [|split; [|split; [|split]]].
  - split; [|split; reflexivity].
    rewrite (next_unfold _ _ _ _ _ Hf). fold f1 u1. unfold examine.
    destruct (restore_keeps f (url (req st))) as (Hst & Hi & Hd & _).
    fold f1 in Hst, Hi, Hd.
    rewrite Hst, Hi, Hn. unfold st'. simpl. rewrite Hd. reflexivity.
  - intros m st0. destruct (done f); simpl; [reflexivity| |];
      (split; [reflexivity|apply terminals_snoc]).
  - intros m fid0 e0 st0 st1 H. apply next_steps in H.
    apply engine_steps_quiet in H. exact H.
  - intros m stk out r st1 H. apply handle_steps in H; [|apply next_steps].
    apply engine_steps_quiet in H as [_ H]. exact H.
  - intros app r Hall. apply serve_forwarders. exact Hall.
Qed.

Lemma clean_of_clean f : removed f = "" -> slashAdded f = false -> clean f = f.
Proof. intros Hr Hs. unfold clean. destruct f; simpl in *. subst. reflexivity. Qed.

(** A dispatcher nested in frame [fid] whose layers only pass control on,
    entered on a url that spells their mount paths as registered: when
    [call] returns, the url is the one it was entered with and the
    continuation of [fid] is queued. *)
Lemma nested_hands_back m fid err rt rt' stk' st st' :
  Boolean err = false ->
  fid < length (frames st) ->
  (forall l, l ∈ stk' ->
             forwards (layer_handle l) /\
             spelled (protohost_of (url (req st))) (url (req st)) l) ->
  call (next m) (SubApp rt' stk') rt err fid st = Some st' ->
  url (req st') = url (req st) /\
  (exists e', tasks st' = tasks st ++ [(KNext fid, e')]) /\
  frames st' !! fid = frames st !! fid.
Proof.
  intros Hb Hlt Hall Hc. rewrite call_unfold in Hc. unfold decide_call in Hc.
  rewrite Hb in Hc. simpl in Hc. unfold handle in Hc.
  destruct (next m _ _ _) as [st1|] eqn:Hn; simpl in Hc; [|discriminate].
  injection Hc as <-.
  eapply (forward_run (fun u => u = url (req st)) m (length (frames st)) VUndefined _ st1
                      (Frame 0 (protohost_of (url (req st))) "" false stk' (KNext fid)))
    in Hn.
  - destruct Hn as (Hu & [e' He] & Hf). split; [exact Hu|]. split.
    + exists e'. exact He.
    + rewrite Hf by lia. simpl. apply lookup_app_l. exact Hlt.
  - simpl. apply lookup_snoc_new.
  - reflexivity.
  - intros l Hin. apply Hall. exact Hin.
  - apply spelled_kept_by_trim. intros l Hin. apply Hall. exact Hin.
Qed.

(** C3, as the code has it. A layer whose mount path is trimmed from a url
    [protohost + seg + rest] hands its handler the url [protohost + rest],
    with a slash put in front when there is no protohost and [rest] does
    not start with one. Whenever the continuation of the frame is entered
    again on that url, [next] takes the synthesized slash off, puts the
    mount path back, and examines the following layer on
    [protohost + mountPath + rest]. That is the url before trimming when
    the request spells the segment [seg] as the mount path is registered.
    A nested dispatcher whose layers pass control on, however many of them
    are hit, gives the url back as it received it and queues the
    continuation of the frame, provided that url spells the mount paths it
    trims as registered. *)
Theorem path_restored n fid err st f l seg rest :
  frames st !! fid = Some f ->
  removed f = "" ->
  slashAdded f = false ->
  stack f !! index f = Some l ->
  classify (layer_route l) (pathname_of (url (req st))) = Hit ->
  trimmable (layer_route l) = true ->
  url (req st) = protohost f +:+ seg +:+ rest ->
  String.length seg = String.length (layer_route l) ->
  let st_t := trimmed fid f l err st in
  let restored := protohost f +:+ layer_route l +:+ rest in
  next (S n) fid err st =
    call (next n) (layer_handle l) (layer_route l) err fid st_t /\
  (url (req st_t) = protohost f +:+ rest \/
   (protohost f = "" /\ url (req st_t) = "/" +:+ rest)) /\
  (forall m e st2,
      frames st2 !! fid = frames st_t !! fid ->
      url (req st2) = url (req st_t) ->
      next (S m) fid e st2 =
      examine (next m) fid e (advance f)
              (set_frame fid (advance f) (set_url restored st2))) /\
  (seg = layer_route l -> restored = url (req st)) /\
  (forall m rt' stk' st_a,
      Boolean err = false ->
      (forall l', l' ∈ stk' ->
                  forwards (layer_handle l') /\
                  spelled (protohost_of (url (req st_t))) (url (req st_t)) l') ->
      call (next m) (SubApp rt' stk') (layer_route l) err fid st_t = Some st_a ->
      url (req st_a) = url (req st_t) /\
      (exists e', tasks st_a = tasks st_t ++ [(KNext fid, e')]) /\
      frames st_a !! fid = frames st_t !! fid).
Proof.
  intros Hf Hr Hs Hl Hc Ht Hu Hlen st_t restored.
  assert (Hlt : fid < length (frames st)) by (eapply lookup_lt_Some; eauto).
  destruct (trim_restore (advance f) (layer_route l) seg rest Hs Hlen Ht) as [Hshape Hrest].
  simpl in Hshape, Hrest. rewrite <- Hu in Hshape, Hrest.
  assert (Hca : clean (advance f) = advance f) by (apply clean_of_clean; assumption).
  rewrite Hca in Hrest.
  assert (Hft : frames st_t !! fid =
                Some (fst (trim (layer_route l) (advance f) (url (req st))))).
  { unfold st_t, trimmed. simpl. apply list_lookup_insert_eq.
    rewrite !length_insert. exact Hlt. }
  split; [|split; [|split; [|split]]].
  - rewrite (next_unfold _ _ _ _ _ Hf).
    rewrite (restore_of_clean _ _ Hr Hs). simpl. unfold examine. rewrite Hl.
    apply classify_hit in Hc as [Hp Hb]. simpl. rewrite Hp, Hb. simpl.
    unfold st_t, trimmed, examined_at.
    destruct (trim (layer_route l) (advance f) (url (req st))) as [ft ut]. simpl.
    replace (classify (layer_route l) (pathname_of (url (req st)))) with Hit
      by (symmetry; apply classify_hit; auto).
    destruct st as [[mt u o] fs ts tr]. unfold log, set_frame, set_url. simpl in *.
    rewrite (list_insert_id fs fid f Hf). reflexivity.
  - exact Hshape.
  - intros m e st2 Hf2 Hu2. rewrite Hft in Hf2.
    rewrite (next_unfold _ _ _ _ _ Hf2), Hu2.
    unfold st_t at 1 2 3. unfold trimmed. simpl. rewrite Hrest. reflexivity.
  - intros ->. unfold restored. rewrite Hu. reflexivity.
  - intros m rt' stk' st_a Hb Hall Hcall.
    eapply nested_hands_back; eauto.
    unfold st_t, trimmed. simpl. rewrite !length_insert. exact Hlt.
Qed.

(** ** [getProtohost] on the forms of a request target *)

Lemma substr_to_from n : forall s, substr_to n s +:+ substr_from n s = s.
Proof.
  induction n as [|n IH]; intros [|c s]; try reflexivity.
  simpl. rewrite append_cons, IH. reflexivity.
Qed.

Lemma substr_from_length_substr_to n : forall s,
    substr_from (String.length (substr_to n s)) s = substr_from n s.
Proof.
  induction n as [|n IH]; intros [|c s]; try reflexivity.
  simpl. apply IH.
Qed.

Lemma substr_to_append_r a : forall j b,
    substr_to (String.length a + j) (a +:+ b) = a +:+ substr_to j b.
Proof.
  induction a as [|c a IH]; intros j b; [reflexivity|].
  rewrite !append_cons. simpl. rewrite IH. reflexivity.
Qed.

Lemma substr_to_0 s : substr_to 0 s = "".
Proof. destruct s; reflexivity. Qed.

Lemma substr_to_append_l i : forall a b,
    i <= String.length a -> substr_to i (a +:+ b) = substr_to i a.
Proof.
  induction i as [|i IH]; intros a b Hle; [rewrite !substr_to_0; reflexivity|].
  destruct a as [|c a]; simpl in Hle; [lia|].
  rewrite append_cons. simpl. rewrite IH by lia. reflexivity.
Qed.

Lemma length_append a b : String.length (a +:+ b) = String.length a + String.length b.
Proof.
  induction a as [|c a IH]; [reflexivity|]. rewrite append_cons. simpl. rewrite IH.
  reflexivity.
Qed.

Lemma prefix_append p t : String.prefix p (p +:+ t) = true.
Proof.
  induction p as [|c p IH]; [destruct t; reflexivity|].
  rewrite append_cons. simpl. destruct (ascii_dec c c); [exact IH|contradiction].
Qed.

Lemma prefix_head_differs c pat d s :
  d <> c -> String.prefix (String c pat) (String d s) = false.
Proof. intros Hne. simpl. destruct (ascii_dec c d); [congruence|reflexivity]. Qed.

Lemma index_of_aux_unfold pat s k :
  index_of_aux pat s k =
  if String.prefix pat s then Some k
  else match s with
       | EmptyString => None
       | String _ s' => index_of_aux pat s' (S k)
       end.
Proof. destruct s; reflexivity. Qed.

Lemma index_of_aux_ge pat : forall s k i, index_of_aux pat s k = Some i -> k <= i.
Proof.
  induction s as [|d s IH]; intros k i; rewrite index_of_aux_unfold.
  - destruct (String.prefix pat ""); [intros [= H]; lia|discriminate].
  - destruct (String.prefix pat (String d s)); [intros [= H]; lia|].
    intros H. apply IH in H. lia.
Qed.

(** The first occurrence of a pattern lies behind a string in which its
    first code unit does not occur. *)
Lemma index_of_aux_skip c pat s : forall w k,
    occurs c s = false ->
    index_of_aux (String c pat) (s +:+ w) k =
    index_of_aux (String c pat) w (k + String.length s).
Proof.
  induction s as [|d s IH]; intros w k Ho.
  - rewrite append_nil. simpl. rewrite Nat.add_0_r. reflexivity.
  - simpl in Ho. apply orb_false_iff in Ho as [Hd Ho].
    apply bool_decide_eq_false in Hd.
    rewrite append_cons, index_of_aux_unfold.
    rewrite (prefix_head_differs c pat d _ Hd), IH by exact Ho.
    simpl. f_equal. lia.
Qed.

Lemma index_of_aux_found pat t k : index_of_aux pat (pat +:+ t) k = Some k.
Proof.
  rewrite index_of_aux_unfold, prefix_append. reflexivity.
Qed.

Lemma index_of_aux_none c pat : forall s k,
    occurs c s = false -> index_of_aux (String c pat) s k = None.
Proof.
  induction s as [|d s IH]; intros k Ho; [reflexivity|].
  simpl in Ho. apply orb_false_iff in Ho as [Hd Ho].
  apply bool_decide_eq_false in Hd.
  rewrite index_of_aux_unfold.
  rewrite (prefix_head_differs c pat d _ Hd). apply IH. exact Ho.
Qed.

Lemma occurs_substr_to c i : forall s, occurs c s = false -> occurs c (substr_to i s) = false.
Proof.
  induction i as [|i IH]; intros [|d s] Ho; try reflexivity.
  simpl in *. apply orb_false_iff in Ho as [Hd Ho]. rewrite Hd, IH by exact Ho.
  reflexivity.
Qed.

Lemma append_nil_r (a : string) : a +:+ "" = a.
Proof. induction a as [|c a IH]; [reflexivity|]. rewrite append_cons, IH. reflexivity. Qed.

Lemma index_of_unfold pat s : index_of pat s = index_of_aux pat s 0.
Proof.
  unfold index_of, index_of_from.
  replace (String.length s <? 0) with false by (symmetry; apply Nat.ltb_ge; lia).
  rewrite substr_from_0. reflexivity.
Qed.

(** X1. The protohost of a url is a prefix of it: the url is the protohost
    followed by [url.substr(protohost.length)], whatever the url. *)
Theorem protohost_is_prefix u :
  u = protohost_of u +:+ substr_from (String.length (protohost_of u)) u.
Proof.
  unfold protohost_of, getProtohost.
  destruct (_ || _);
    [simpl; rewrite ?append_nil, ?substr_from_0; reflexivity|].
  destruct (index_of "://" _) as [i|];
    [|simpl; rewrite ?append_nil, ?substr_from_0; reflexivity].
  destruct (index_of_from "/" (3 + i) u) as [k|]; unfold substr_to_index.
  - rewrite substr_from_length_substr_to, substr_to_from. reflexivity.
  - simpl. rewrite ?append_nil, ?substr_from_0. reflexivity.
Qed.

Lemma guard_passes scheme w :
  scheme <> "" -> occurs "/" scheme = false ->
  (String.length (scheme +:+ w) =? 0) ||
  bool_decide (char_at 0 (scheme +:+ w) = Some "/"%char) = false.
Proof.
  intros Hne Ho. destruct scheme as [|c s]; [contradiction|].
  simpl in Ho. apply orb_false_iff in Ho as [Hc _]. apply bool_decide_eq_false in Hc.
  rewrite append_cons. simpl. apply bool_decide_eq_false. congruence.
Qed.

(** The first ['?'] of [scheme://w], if any, lies behind the ["://"]. *)
Lemma path_part scheme w :
  occurs "?" scheme = false ->
  exists j,
    substr_to (match index_of "?" (scheme +:+ "://" +:+ w) with
               | Some i => i
               | None => String.length (scheme +:+ "://" +:+ w)
               end) (scheme +:+ "://" +:+ w)
    = scheme +:+ "://" +:+ substr_to j w.
Proof.
  intros Ho. rewrite index_of_unfold.
  rewrite (index_of_aux_skip "?" "" scheme _ 0 Ho).
  rewrite (index_of_aux_skip "?" "" "://" w _ eq_refl).
  destruct (index_of_aux "?" w _) as [i|] eqn:E.
  - apply index_of_aux_ge in E. simpl in E.
    exists (i - String.length scheme - 3). cbv beta iota.
    replace i with (String.length scheme + (3 + (i - String.length scheme - 3))) at 1
      by lia.
    rewrite substr_to_append_r.
    rewrite (substr_to_append_r "://"). reflexivity.
  - exists (String.length w). cbv beta iota. rewrite !length_append.
    rewrite substr_to_append_r, (substr_to_append_r "://"). reflexivity.
Qed.

Lemma fqdn_index scheme t :
  occurs ":" scheme = false ->
  index_of "://" (scheme +:+ "://" +:+ t) = Some (String.length scheme).
Proof.
  intros Ho. rewrite index_of_unfold.
  rewrite (index_of_aux_skip ":" "//" scheme _ 0 Ho).
  apply index_of_aux_found.
Qed.

(** X2. For a request target in absolute form, [scheme://host/rest], the
    protohost is [scheme://host]: the scheme non-empty and without ['/'],
    [':'] and ['?'], the host without ['/']. *)
Theorem getProtohost_absolute scheme host rest :
  scheme <> "" ->
  occurs "/" scheme = false -> occurs ":" scheme = false -> occurs "?" scheme = false ->
  occurs "/" host = false ->
  getProtohost (scheme +:+ "://" +:+ host +:+ "/" +:+ rest) =
  Some (scheme +:+ "://" +:+ host).
Proof.
  intros Hne Hs Hc Hq Hh. unfold getProtohost.
  rewrite (guard_passes scheme _ Hne Hs).
  destruct (path_part scheme (host +:+ "/" +:+ rest) Hq) as [j ->].
  rewrite (fqdn_index scheme _ Hc). f_equal.
  set (url := scheme +:+ "://" +:+ host +:+ "/" +:+ rest).
  assert (Hfrom : index_of_from "/" (3 + String.length scheme) url
                  = Some (String.length scheme + (3 + String.length host))).
  { unfold index_of_from, url.
    replace (String.length _ <? 3 + String.length scheme) with false
      by (symmetry; apply Nat.ltb_ge; rewrite !length_append; simpl; lia).
    replace (3 + String.length scheme) with (String.length scheme + 3) by lia.
    rewrite substr_from_add, substr_from_append.
    change 3 with (String.length "://") at 1. rewrite substr_from_append.
    rewrite (index_of_aux_skip "/" "" host _ _ Hh), index_of_aux_found.
    f_equal. simpl. lia. }
  rewrite Hfrom. unfold substr_to_index, url.
  rewrite substr_to_append_r. rewrite (substr_to_append_r "://").
  replace (String.length host) with (String.length host + 0) by lia.
  rewrite substr_to_append_r, substr_to_0, append_nil_r. reflexivity.
Qed.

(** X3. For [scheme://host] with nothing after the host, [indexOf('/')]
    finds nothing and the protohost is the empty string. *)
Theorem getProtohost_no_path scheme host :
  scheme <> "" ->
  occurs "/" scheme = false -> occurs ":" scheme = false -> occurs "?" scheme = false ->
  occurs "/" host = false ->
  getProtohost (scheme +:+ "://" +:+ host) = Some "" /\
  protohost_of (scheme +:+ "://" +:+ host) = "".
Proof.
  intros Hne Hs Hc Hq Hh.
  assert (H : getProtohost (scheme +:+ "://" +:+ host) = Some "").
  { unfold getProtohost.
    rewrite (guard_passes scheme _ Hne Hs).
    destruct (path_part scheme host Hq) as [j ->].
    rewrite (fqdn_index scheme _ Hc). f_equal.
    unfold index_of_from.
    replace (String.length _ <? 3 + String.length scheme) with false
      by (symmetry; apply Nat.ltb_ge; rewrite !length_append; simpl; lia).
    replace (3 + String.length scheme) with (String.length scheme + 3) by lia.
    rewrite substr_from_add, substr_from_append.
    change 3 with (String.length "://") at 1. rewrite substr_from_append.
    rewrite (index_of_aux_none "/" "" host _ Hh). reflexivity. }
  split; [exact H|]. unfold protohost_of. rewrite H. reflexivity.
Qed.

Lemma index_of_aux_le c pat t : forall s k,
    exists i, index_of_aux (String c pat) (s +:+ String c pat +:+ t) k = Some i /\
              i <= k + String.length s.
Proof.
  induction s as [|d s IH]; intros k.
  - rewrite append_nil, index_of_aux_found. exists k. split; [reflexivity|lia].
  - rewrite append_cons, index_of_aux_unfold.
    destruct (String.prefix _ _).
    + exists k. split; [reflexivity|lia].
    + destruct (IH (S k)) as (i & Hi & Hle). exists i. split; [exact Hi|simpl; lia].
Qed.

(** X4. A ["://"] behind the first ['?'] does not count: a target [p?q]
    that does not start with a slash and has no [':'] in [p] has no
    protohost, whatever the query [q] holds. *)
Theorem getProtohost_ignores_query p q :
  p <> "" ->
  char_at 0 p <> Some "/"%char ->
  occurs ":" p = false ->
  getProtohost (p +:+ "?" +:+ q) = None /\ protohost_of (p +:+ "?" +:+ q) = "".
Proof.
  intros Hne Hs Hc.
  assert (H : getProtohost (p +:+ "?" +:+ q) = None).
  { unfold getProtohost.
    assert (Hg : (String.length (p +:+ "?" +:+ q) =? 0) ||
                 bool_decide (char_at 0 (p +:+ "?" +:+ q) = Some "/"%char) = false).
    { destruct p as [|c s]; [contradiction|]. rewrite append_cons. simpl.
      apply bool_decide_eq_false. exact Hs. }
    rewrite Hg, (index_of_unfold "?").
    destruct (index_of_aux_le "?" "" q p 0) as (i & -> & Hle).
    rewrite (substr_to_append_l i p _ Hle), index_of_unfold.
    rewrite (index_of_aux_none ":" "//" _ 0 (occurs_substr_to _ _ _ Hc)).
    reflexivity. }
  split; [exact H|]. unfold protohost_of. rewrite H. reflexivity.
Qed.

(** ** The tests of [next] on mount paths in general *)

Lemma toLowerCase_append a b : toLowerCase (a +:+ b) = toLowerCase a +:+ toLowerCase b.
Proof.
  induction a as [|c a IH]; [reflexivity|].
  rewrite append_cons. simpl. rewrite IH, append_cons. reflexivity.
Qed.

Lemma length_toLowerCase s : String.length (toLowerCase s) = String.length s.
Proof. induction s as [|c s IH]; [reflexivity|]. simpl. rewrite IH. reflexivity. Qed.

Lemma substr_to_append_exact a b : substr_to (String.length a) (a +:+ b) = a.
Proof.
  replace (String.length a) with (String.length a + 0) by lia.
  rewrite substr_to_append_r, substr_to_0, append_nil_r. reflexivity.
Qed.

Lemma char_at_append a b : char_at (String.length a) (a +:+ b) = char_at 0 b.
Proof.
  unfold char_at. induction a as [|c a IH]; [reflexivity|].
  rewrite append_cons. simpl. exact IH.
Qed.

Lemma prefix_hit_append r w : prefix_hit r (r +:+ w) = true.
Proof.
  unfold prefix_hit. rewrite toLowerCase_append, <- (length_toLowerCase r).
  rewrite substr_to_append_exact. apply String.eqb_refl.
Qed.

(** X5. Whatever the mount path [r]: the pathname [r] itself is a hit; [r]
    followed by one more code unit and anything after it is a hit when
    that code unit is ['/'] or ['.'], and a miss at the border otherwise.
    So a mount path that ends with a slash misses the paths below it,
    unless they go on with a second slash or a dot. *)
Theorem classify_mount_path r c x :
  classify r r = Hit /\
  classify r (r +:+ String c x) =
    (if bool_decide (c = "/"%char) || bool_decide (c = "."%char) then Hit
     else BoundaryMiss) /\
  classify (r +:+ "/") (r +:+ "/" +:+ String c x) =
    (if bool_decide (c = "/"%char) || bool_decide (c = "."%char) then Hit
     else BoundaryMiss).
Proof.
  assert (H : forall r0, classify r0 (r0 +:+ String c x) =
                         (if bool_decide (c = "/"%char) || bool_decide (c = "."%char)
                          then Hit else BoundaryMiss)).
  { intros r0. unfold classify. rewrite prefix_hit_append. simpl.
    unfold border_hit. rewrite char_at_append. simpl.
    destruct (bool_decide (c = "/"%char) || bool_decide (c = "."%char)); reflexivity. }
  split; [|split; [apply H|]].
  - unfold classify. rewrite <- (append_nil_r r) at 2. rewrite prefix_hit_append. simpl.
    unfold border_hit. rewrite <- (append_nil_r r) at 2. rewrite char_at_append.
    reflexivity.
  - rewrite <- append_assoc. apply H.
Qed.

Lemma lower_char_slash c : lower_char c = "/"%char <-> c = "/"%char.
Proof.
  destruct c as [[] [] [] [] [] [] [] []]; vm_compute; split; intros H;
    solve [reflexivity | discriminate].
Qed.

Lemma lower_char_dot c : lower_char c = "."%char <-> c = "."%char.
Proof.
  destruct c as [[] [] [] [] [] [] [] []]; vm_compute; split; intros H;
    solve [reflexivity | discriminate].
Qed.

Lemma char_at_toLowerCase n : forall s,
    char_at n (toLowerCase s) = lower_char <$> char_at n s.
Proof.
  unfold char_at. induction n as [|n IH]; intros [|c s]; try reflexivity.
  simpl. apply IH.
Qed.

Lemma border_hit_lowered r p : border_hit (toLowerCase r) (toLowerCase p) = border_hit r p.
Proof.
  unfold border_hit. rewrite length_toLowerCase, char_at_toLowerCase.
  destruct (char_at (String.length r) p) as [c|]; simpl; [|reflexivity].
  f_equal; apply bool_decide_ext; [apply lower_char_slash|apply lower_char_dot].
Qed.

Lemma lower_char_idem c : lower_char (lower_char c) = lower_char c.
Proof. destruct c as [[] [] [] [] [] [] [] []]; vm_compute; reflexivity. Qed.

Lemma toLowerCase_idem s : toLowerCase (toLowerCase s) = toLowerCase s.
Proof.
  induction s as [|c s IH]; [reflexivity|]. simpl. rewrite lower_char_idem, IH.
  reflexivity.
Qed.

Lemma classify_lowered r p : classify (toLowerCase r) (toLowerCase p) = classify r p.
Proof.
  unfold classify. rewrite border_hit_lowered. unfold prefix_hit.
  rewrite !toLowerCase_idem, length_toLowerCase. reflexivity.
Qed.

(** X6. The verdict on a layer does not depend on letter case: mount paths
    that are equal once lowered, on pathnames that are equal once lowered,
    get the same verdict. *)
Theorem classify_case_insensitive r r' p p' :
  toLowerCase r = toLowerCase r' ->
  toLowerCase p = toLowerCase p' ->
  classify r p = classify r' p'.
Proof.
  intros Hr Hp. rewrite <- (classify_lowered r p), <- (classify_lowered r' p'), Hr, Hp.
  reflexivity.
Qed.

Lemma strip_added_slash p : strip_trailing_slash (p +:+ "/") = p.
Proof.
  unfold strip_trailing_slash.
  assert (H : last_char (p +:+ "/") = Some "/"%char /\ slice_0_m1 (p +:+ "/") = p).
  { induction p as [|c p [IH1 IH2]]; [split; reflexivity|].
    rewrite append_cons. destruct (p +:+ "/") as [|d t] eqn:E.
    - destruct p; discriminate.
    - split; [exact IH1|]. change (String c (slice_0_m1 (String d t)) = String c p).
      rewrite IH2. reflexivity. }
  destruct H as [-> ->]. reflexivity.
Qed.

(** X7. A mount path given with a trailing slash is registered without it:
    [use(p + '/', m)] stores the layer at [p], and that layer is hit by the
    pathname [p] and by every pathname [p/x]. *)
Theorem use_trailing_slash_mounts p m this x :
  exists h,
    use (RString (p +:+ "/")) (Some m) this =
      Some (Server (srv_route this) (srv_stack this ++ [(p, h)])) /\
    classify p p = Hit /\ classify p (p +:+ "/" +:+ x) = Hit.
Proof.
  assert (Hw : exists h, wrap (RString (p +:+ "/")) (p +:+ "/") m = Some h).
  { destruct m; simpl; eauto. }
  destruct Hw as [h Hw]. exists h. split; [|split].
  - unfold use. simpl. rewrite Hw. simpl. rewrite strip_added_slash. reflexivity.
  - apply (classify_mount_path p "/"%char "").
  - destruct x as [|c x'].
    + rewrite <- (append_nil_r p) at 1.
      pose proof (proj1 (proj2 (classify_mount_path p "/"%char ""))) as H.
      rewrite append_nil_r. exact H.
    + pose proof (proj1 (proj2 (classify_mount_path p "/"%char (String c x')))) as H.
      exact H.
Qed.

(** ** What [next] keeps *)

(** X8. After the opening of [next] the frame holds nothing to put back:
    entering [next] again restores nothing, whatever the url has become,
    until a layer is trimmed again. *)
Theorem restore_once f u u' :
  restore (fst (restore f u)) u' = (fst (restore f u), u') /\
  removed (fst (restore f u)) = "" /\ slashAdded (fst (restore f u)) = false.
Proof.
  rewrite restore_clean. split; [|split; reflexivity].
  apply restore_of_clean; reflexivity.
Qed.

Lemma frames_kept_refl fs : frames_kept fs fs.
Proof. intros fid f H. exists f. auto 6. Qed.

Lemma frames_kept_trans fs1 fs2 fs3 :
  frames_kept fs1 fs2 -> frames_kept fs2 fs3 -> frames_kept fs1 fs3.
Proof.
  intros H12 H23 fid f Hf.
  destruct (H12 _ _ Hf) as (f2 & Hf2 & Hs2 & Hp2 & Hd2 & Hi2).
  destruct (H23 _ _ Hf2) as (f3 & Hf3 & Hs3 & Hp3 & Hd3 & Hi3).
  exists f3. repeat split; try congruence. lia.
Qed.

Lemma frames_kept_insert fs fid f f' :
  fs !! fid = Some f -> stack f' = stack f -> protohost f' = protohost f ->
  done f' = done f -> index f <= index f' ->
  frames_kept fs (<[fid := f']> fs).
Proof.
  intros Hf Hs Hp Hd Hi fid0 f0 H0.
  destruct (decide (fid = fid0)) as [->|Hne].
  - exists f'. rewrite list_lookup_insert_eq by (eapply lookup_lt_Some; eauto).
    rewrite Hf in H0. injection H0 as <-. auto 6.
  - exists f0. rewrite list_lookup_insert_ne by exact Hne. auto 6.
Qed.

Lemma any_step_frames_kept st st' : any_step st st' -> frames_kept (frames st) (frames st').
Proof.
  intros [Hstep|Hstep].
  - destruct Hstep as
        [fid f st Hf|fid err f st Hf Hn|fid err f l st Hf Hl Hc
        |fid err f l st Hf Hl Hc|u st|fid e st|stk out st]; simpl;
      try apply frames_kept_refl.
    + destruct (restore_keeps f (url (req st))) as (Hs & Hi & Hd & Hp).
      eapply frames_kept_insert; eauto. lia.
    + eapply frames_kept_insert; eauto. simpl. lia.
    + eapply frames_kept_insert; eauto. simpl. lia.
    + destruct (trim_keeps (layer_route l) (advance f) (url (req st)))
        as (Hs & Hi & Hd & Hp).
      rewrite list_insert_insert_eq. eapply frames_kept_insert; eauto.
      rewrite Hi. simpl. lia.
    + intros fid f Hf. exists f.
      rewrite lookup_app_l by (eapply lookup_lt_Some; eauto). auto 6.
  - destruct Hstep; simpl; apply frames_kept_refl.
Qed.

Lemma steps_frames_kept st st' : rtc any_step st st' -> frames_kept (frames st) (frames st').
Proof.
  induction 1 as [|x y z Hxy _ IH]; [apply frames_kept_refl|].
  eapply frames_kept_trans; [apply any_step_frames_kept; exact Hxy|exact IH].
Qed.

(** X9. Whatever the handlers do, a call of [next] and the turns of the
    event loop leave every frame in place with the stack, the protohost
    and the [done] it was created with, and with an index that has not
    gone back. *)
Theorem frames_stay n fid err st st' :
  next n fid err st = Some st' \/ loop n st = Some st' ->
  frames_kept (frames st) (frames st').
Proof.
  intros [H|H]; apply steps_frames_kept.
  - apply engine_any. eapply next_steps; eauto.
  - eapply loop_steps; eauto.
Qed.

(** ** The url that a handler is given *)

Lemma trim_url_protohost rt f g u :
  protohost f = protohost g -> snd (trim rt f u) = snd (trim rt g u).
Proof.
  intros Hp. unfold trim. rewrite Hp.
  destruct (negb (String.length rt =? 0) && negb (String.eqb rt "/")); [|reflexivity].
  destruct (String.eqb (protohost g) "" && _); reflexivity.
Qed.

Lemma trim_shape rt f u :
  trimmable rt = true ->
  exists rest, snd (trim rt f u) = protohost f +:+ rest /\
               (protohost f = "" -> char_at 0 rest = Some "/"%char).
Proof.
  unfold trimmable, trim. intros ->.
  set (x := substr_from (String.length (protohost f) + String.length rt) u).
  destruct (String.eqb_spec (protohost f) "") as [Hp|Hp]; simpl.
  - destruct (bool_decide (char_at 0 (protohost f +:+ x) = Some "/"%char)) eqn:Hb; simpl.
    + exists x. split; [reflexivity|]. intros _.
      apply bool_decide_eq_true in Hb. rewrite Hp, append_nil in Hb. exact Hb.
    + exists ("/" +:+ protohost f +:+ x). split; [|intros _; reflexivity].
      rewrite Hp, !append_nil. reflexivity.
  - exists x. split; [reflexivity|]. intros H. contradiction.
Qed.

Lemma urls_trimmed_frames fs fs' tr :
  frames_kept fs fs' -> urls_trimmed fs tr -> urls_trimmed fs' tr.
Proof.
  intros Hk H j fid idx rt u p e a e' args Hj Hs.
  destruct (H _ _ _ _ _ _ _ _ _ _ Hj Hs) as (f & Hf & Hu).
  destruct (Hk _ _ Hf) as (f' & Hf' & _ & Hp & _).
  exists f'. split; [exact Hf'|]. rewrite Hu. apply trim_url_protohost. congruence.
Qed.

Lemma urls_trimmed_log fs tr ev :
  (forall fid rt a e args, ev <> Called fid rt a e (Invoked args)) ->
  urls_trimmed fs tr -> urls_trimmed fs (tr ++ [ev]).
Proof.
  intros Hev H j fid idx rt u p e a e' args Hj Hs.
  apply lookup_snoc in Hs as [Hs|[_ Hs]]; [|exfalso; eapply Hev; eauto].
  apply lookup_snoc in Hj as [Hj|[Hj _]];
    [eauto|apply lookup_lt_Some in Hs; lia].
Qed.

Lemma any_step_urls_trimmed st st' :
  any_step st st' ->
  urls_trimmed (frames st) (trace st) -> urls_trimmed (frames st') (trace st').
Proof.
  intros Hstep HI.
  pose proof (any_step_frames_kept _ _ Hstep) as Hk.
  pose proof (urls_trimmed_frames _ _ _ Hk HI) as HI'.
  destruct Hstep as [Hstep|Hstep].
  - destruct Hstep as
        [fid f st Hf|fid err f st Hf Hn|fid err f l st Hf Hl Hc
        |fid err f l st Hf Hl Hc|u st|fid e st|stk out st]; try exact HI'.
    + apply urls_trimmed_log; [intros; discriminate|exact HI'].
    + simpl in *. intros j fid0 idx rt u p e a e' args Hj Hs.
      apply lookup_snoc in Hs as [Hs|[Hsl Hs]].
      * apply lookup_snoc in Hs as [Hs|[_ Hs]]; [|discriminate].
        apply lookup_snoc in Hj as [Hj|[Hjl _]];
          [|rewrite length_app in Hjl; simpl in Hjl; apply lookup_lt_Some in Hs; lia].
        apply lookup_snoc in Hj as [Hj|[Hjl _]];
          [|apply lookup_lt_Some in Hs; lia].
        assert (Hold : urls_trimmed (frames st) (trace st)) by exact HI.
        destruct (Hold _ _ _ _ _ _ _ _ _ _ Hj Hs) as (f0 & Hf0 & Hu).
        destruct (Hk _ _ Hf0) as (f' & Hf' & _ & Hp & _). simpl in Hf'.
        exists f'. split; [exact Hf'|]. rewrite Hu. apply trim_url_protohost. congruence.
      * rewrite length_app in Hsl. simpl in Hsl.
        assert (Hjl : j = length (trace st)) by lia. subst j.
        rewrite lookup_app_l in Hj by (rewrite length_app; simpl; lia).
        rewrite lookup_snoc_new in Hj. unfold examined_at in Hj.
        injection Hj as <- _ <- <- _ _ _.
        unfold called_at in Hs. injection Hs. intros Hd. intros. symmetry in Hd.
        apply decide_call_request in Hd. rewrite Hd.
        exists (fst (trim (layer_route l) (advance f) (url (req st)))).
        split.
        -- rewrite list_insert_insert_eq. apply list_lookup_insert_eq.
           eapply lookup_lt_Some; eauto.
        -- simpl. apply trim_url_protohost.
           destruct (trim_keeps (layer_route l) (advance f) (url (req st)))
             as (_ & _ & _ & Hp). rewrite Hp. reflexivity.
  - destruct Hstep as [k e rest st Ht|k e st]; [exact HI'|].
    apply urls_trimmed_log; [intros; discriminate|exact HI'].
Qed.

Lemma steps_urls_trimmed st st' :
  rtc any_step st st' ->
  urls_trimmed (frames st) (trace st) -> urls_trimmed (frames st') (trace st').
Proof.
  induction 1 as [|x y z Hxy _ IH]; intros HI; [exact HI|].
  apply IH. eapply any_step_urls_trimmed; eauto.
Qed.

(** X10. In every traversal, the url given to a handler applied after a
    hit is the url examined, when the mount path is empty or ["/"];
    otherwise it starts with the protohost of the frame, and when that is
    empty, with a slash. *)
Theorem handler_url n app r st' j fid idx rt u p e a e' args :
  serve n app r = Some st' ->
  trace st' !! j = Some (Examined fid idx rt u p e Hit) ->
  trace st' !! S j = Some (Called fid rt a e' (Invoked args)) ->
  exists f,
    frames st' !! fid = Some f /\
    url (args_request args) = snd (trim rt f u) /\
    (trimmable rt = false -> url (args_request args) = u) /\
    (trimmable rt = true ->
     exists rest, url (args_request args) = protohost f +:+ rest /\
                  (protohost f = "" -> char_at 0 rest = Some "/"%char)).
Proof.
  intros Hs Hj Hc.
  assert (HI : urls_trimmed (frames st') (trace st')).
  { eapply steps_urls_trimmed; [eapply serve_steps; eauto|].
    intros j0 fid0 idx0 rt0 u0 p0 e0 a0 e0' args0 H. simpl in H.
    rewrite lookup_nil in H. discriminate. }
  destruct (HI _ _ _ _ _ _ _ _ _ _ Hj Hc) as (f & Hf & Hu).
  exists f. split; [exact Hf|]. split; [exact Hu|]. split.
  - intros Ht. rewrite Hu, (trim_untrimmable _ _ _ Ht). reflexivity.
  - intros Ht. rewrite Hu. apply trim_shape. exact Ht.
Qed.

(** ** Layers that are left out *)

Lemma applied_snoc tr ev :
  applied (tr ++ [ev]) =
  applied tr ++ match ev with
                | Called fid rt _ _ (Invoked a) => [(fid, rt, a)]
                | _ => []
                end.
Proof.
  unfold applied. rewrite omap_app. simpl.
  destruct ev as [| ? ? ? ? [?|] |]; reflexivity.
Qed.

Lemma decide_call_left_out err h r :
  left_out err h -> decide_call (arity h) err r = NotInvoked.
Proof.
  unfold left_out, mode_of, decide_call.
  destruct (Boolean err && _); [discriminate|].
  destruct (negb (Boolean err) && _); [discriminate|reflexivity].
Qed.

(** A frame whose remaining layers are all left out for [err]: [next]
    runs through them, applies none, and defers [done] with [err]. *)
Lemma left_out_run k : forall c err st fc,
    frames st !! c = Some fc ->
    length (stack fc) <= index fc + k ->
    (forall l, l ∈ stack fc -> left_out err (layer_handle l)) ->
    exists st', next (S k) c err st = Some st' /\
                tasks st' = tasks st ++ [(done fc, err)] /\
                applied (trace st') = applied (trace st).
Proof.
  induction k as [|k IH]; intros c err st fc Hfc Hlen Hall;
    rewrite (next_unfold _ _ _ _ _ Hfc), restore_clean;
    assert (Hlt : c < length (frames st)) by (eapply lookup_lt_Some; eauto);
    unfold examine; simpl;
    destruct (stack fc !! index fc) as [l|] eqn:Hl;
    try (eexists; split; [reflexivity|split; reflexivity]).
  - apply lookup_lt_Some in Hl. lia.
  - pose proof (Hall l (list_elem_of_lookup_2 _ _ _ Hl)) as Hlo.
    assert (Hgo : forall stx fx,
               frames stx !! c = Some fx -> stack fx = stack fc ->
               done fx = done fc -> index fx = S (index fc) ->
               tasks stx = tasks st -> applied (trace stx) = applied (trace st) ->
               exists st', next (S k) c err stx = Some st' /\
                           tasks st' = tasks st ++ [(done fc, err)] /\
                           applied (trace st') = applied (trace st)).
    { intros stx fx Hfx Hsx Hdx Hix Htx Hax.
      destruct (IH c err stx fx Hfx) as (st' & H1 & H2 & H3).
      - rewrite Hsx, Hix. lia.
      - rewrite Hsx. exact Hall.
      - exists st'. split; [exact H1|]. rewrite H2, H3, Htx, Hax, Hdx. auto. }
    set (U := snd (restore fc (url (req st)))).
    set (f2 := advance (clean fc)).
    assert (Hin2 : <[c := f2]> (<[c := clean fc]> (frames st)) !! c = Some f2).
    { apply list_lookup_insert_eq. rewrite !length_insert. exact Hlt. }
    assert (Hmiss : forall v,
               exists st', next (S k) c err
                 (log (Examined c (index fc) (layer_route l) U (pathname_of U) err v)
                      (set_frame c f2 (set_frame c (clean fc) (set_url U st)))) = Some st' /\
                           tasks st' = tasks st ++ [(done fc, err)] /\
                           applied (trace st') = applied (trace st)).
    { intros v. eapply (Hgo _ f2); try reflexivity; [exact Hin2|].
      simpl. rewrite applied_snoc, app_nil_r. reflexivity. }
    destruct (prefix_hit (layer_route l) (pathname_of U)); simpl; [|apply Hmiss].
    destruct (border_hit (layer_route l) (pathname_of U)); simpl; [|apply Hmiss].
    destruct (trim (layer_route l) f2 U) as [ft ut] eqn:Ht.
    destruct (trim_keeps (layer_route l) f2 U) as (Hst & Hit & Hdt & _).
    rewrite Ht in Hst, Hit, Hdt. simpl in Hst, Hit, Hdt.
    rewrite call_unfold, (decide_call_left_out _ _ _ Hlo).
    eapply (Hgo _ ft); [|exact Hst|exact Hdt|exact Hit|reflexivity|].
    + simpl. apply list_lookup_insert_eq. rewrite !length_insert. exact Hlt.
    + simpl. rewrite !applied_snoc, !app_nil_r. reflexivity.
Qed.

(** X11. An error that is passed on in a frame none of whose layers has a
    handle of arity 4 reaches the frame's [done] unchanged: with fuel
    beyond the number of layers [next] ends, it has applied no handler
    and invoked no final handler, and [done] is queued with that error.
    In a nested dispatcher [done] is the continuation of the parent. *)
Theorem error_reaches_done c err st fc :
  frames st !! c = Some fc ->
  Boolean err = true ->
  (forall l, l ∈ stack fc -> arity (layer_handle l) <> Some 4) ->
  exists st',
    (forall n, length (stack fc) < n -> next n c err st = Some st') /\
    tasks st' = tasks st ++ [(done fc, err)] /\
    applied (trace st') = applied (trace st) /\
    terminals (trace st') = terminals (trace st).
Proof.
  intros Hfc Herr Hall.
  destruct (left_out_run (length (stack fc)) c err st fc Hfc) as (st' & H1 & H2 & H3).
  - lia.
  - intros l Hl. specialize (Hall l Hl). unfold left_out, mode_of. rewrite Herr. simpl.
    destruct (arity (layer_handle l)) as [n|]; [|reflexivity].
    destruct (Nat.eqb_spec n 4) as [->|_]; [contradiction|reflexivity].
  - exists st'. split; [|split; [exact H2|split; [exact H3|]]].
    + intros n Hn. eapply next_mono; [|exact H1]. lia.
    + apply (engine_steps_quiet _ _ (next_steps _ _ _ _ _ H1)).
Qed.

(** X12. A request to a server none of whose handles takes fewer than four
    parameters, such as a server without layers or with error handlers
    only, is answered by the final handler alone: the traversal ends, no
    handler was applied, and the final handler is invoked once, without an
    error. *)
Theorem nothing_fits app r :
  (forall l, l ∈ srv_stack app -> arity_below_4 (arity (layer_handle l)) = false) ->
  exists st',
    (forall n, S (length (srv_stack app)) < n -> serve n app r = Some st') /\
    terminals (trace st') = [(KFinal, VUndefined)] /\
    applied (trace st') = [] /\
    tasks st' = [].
Proof.
  intros Hall.
  set (st0 := enter (srv_stack app) None (State r [] [] [])).
  set (f0 := Frame 0 (protohost_of (url r)) "" false (srv_stack app) KFinal).
  assert (Hf0 : frames st0 !! 0 = Some f0) by reflexivity.
  destruct (left_out_run (length (srv_stack app)) 0 VUndefined st0 f0 Hf0)
    as (st1 & H1 & H2 & H3).
  - simpl. lia.
  - intros l Hl. specialize (Hall l Hl). unfold left_out, mode_of. simpl.
    unfold arity_below_4 in Hall. rewrite Hall. reflexivity.
  - simpl in H2, H3.
    pose proof (engine_steps_quiet _ _ (next_steps _ _ _ _ _ H1)) as [_ Hq].
    simpl in Hq.
    exists (log (Terminal KFinal VUndefined (req st1))
                (State (req st1) (frames st1) [] (trace st1))).
    split; [|split; [|split; [|reflexivity]]].
    + intros n Hn. destruct n as [|n]; [lia|].
      unfold serve, handle.
      change (enter (srv_stack app) None (State r [] [] [])) with st0.
      change (length (frames (State r [] [] []))) with 0.
      rewrite (next_mono (S (length (srv_stack app))) (S n) ltac:(lia) _ _ _ _ H1).
      simpl. rewrite (loop_cons _ KFinal VUndefined [] st1 H2). simpl.
      apply loop_nil. reflexivity.
    + simpl. rewrite terminals_snoc, Hq. reflexivity.
    + simpl. rewrite applied_snoc, H3, app_nil_r. reflexivity.
Qed.

(** ** From [use] to the handler *)

Lemma any_step_trace_grows st st' : any_step st st' -> exists new, trace st' = trace st ++ new.
Proof.
  intros [Hstep|Hstep].
  - destruct Hstep as
        [fid f st Hf|fid err f st Hf Hn|fid err f l st Hf Hl Hc
        |fid err f l st Hf Hl Hc|u st|fid e st|stk out st]; simpl;
      try (exists []; rewrite app_nil_r; reflexivity);
      try (eexists; reflexivity).
    rewrite <- app_assoc. eexists; reflexivity.
  - destruct Hstep as [k e rest st Ht|k e st]; simpl;
      [exists []; rewrite app_nil_r; reflexivity|eexists; reflexivity].
Qed.

Lemma steps_trace_grows st st' : rtc any_step st st' -> exists new, trace st' = trace st ++ new.
Proof.
  induction 1 as [|x y z Hxy _ [new2 IH]]; [exists []; rewrite app_nil_r; reflexivity|].
  destruct (any_step_trace_grows _ _ Hxy) as [new1 H1].
  exists (new1 ++ new2). rewrite IH, H1, app_assoc. reflexivity.
Qed.

Lemma next_hit n fid err st f l :
  frames st !! fid = Some f -> removed f = "" -> slashAdded f = false ->
  stack f !! index f = Some l ->
  classify (layer_route l) (pathname_of (url (req st))) = Hit ->
  next (S n) fid err st =
  call (next n) (layer_handle l) (layer_route l) err fid (trimmed fid f l err st).
Proof.
  intros Hf Hr Hs Hl Hc.
  rewrite (next_unfold _ _ _ _ _ Hf).
  rewrite (restore_of_clean _ _ Hr Hs). simpl. unfold examine. rewrite Hl.
  apply classify_hit in Hc as [Hp Hb]. simpl. rewrite Hp, Hb. simpl.
  unfold trimmed, examined_at.
  destruct (trim (layer_route l) (advance f) (url (req st))) as [ft ut]. simpl.
  replace (classify (layer_route l) (pathname_of (url (req st)))) with Hit
    by (symmetry; apply classify_hit; auto).
  destruct st as [[mt u o] fs ts tr]. unfold log, set_frame, set_url. simpl in *.
  rewrite (list_insert_id fs fid f Hf). reflexivity.
Qed.

Lemma protohost_of_path q rest : char_at 0 q = Some "/"%char -> protohost_of (q +:+ rest) = "".
Proof.
  destruct q as [|c q]; [discriminate|]. simpl. intros [= ->].
  rewrite append_cons. reflexivity.
Qed.

Lemma trim_path q rest f :
  trimmable q = true -> protohost f = "" ->
  snd (trim q f (q +:+ rest)) =
  if bool_decide (char_at 0 rest = Some "/"%char) then rest else "/" +:+ rest.
Proof.
  unfold trimmable, trim. intros -> ->. simpl.
  rewrite substr_from_append, !append_nil.
  destruct (bool_decide (char_at 0 rest = Some "/"%char)); reflexivity.
Qed.

(** X13. A handler registered with [use] on a new server at a mount path
    that starts with a slash, with or without a trailing one, and whose
    arity is below 4: when a request for the stored mount path followed by
    [rest] hits the layer, the first handler applied is that one, and the
    url it is given is [rest], with a slash put in front when [rest] does
    not start with one; [originalUrl] is the url of the request. *)
Theorem mounted_handler_url p mw h m rest n app st' :
  let q := strip_trailing_slash p in
  let u := q +:+ rest in
  wrap (RString p) p mw = Some h ->
  arity_below_4 (arity h) = true ->
  trimmable q = true ->
  char_at 0 q = Some "/"%char ->
  classify q (pathname_of u) = Hit ->
  use (RString p) (Some mw) createServer = Some app ->
  serve n app (Request m u None) = Some st' ->
  exists more,
    applied (trace st') =
    (0, q, RequestArgs
             (Request m (if bool_decide (char_at 0 rest = Some "/"%char)
                         then rest else "/" +:+ rest)
                      (Some u))) :: more.
Proof.
  intros q u Hw Ha Ht Hq Hc Hu Hs.
  assert (Happ : app = Server "/" [(q, h)]).
  { unfold use in Hu. simpl in Hu. rewrite Hw in Hu. simpl in Hu.
    injection Hu as <-. reflexivity. }
  subst app. unfold serve, handle in Hs.
  set (st0 := enter [(q, h)] None (State (Request m u None) [] [] [])) in *.
  change (length (frames (State (Request m u None) [] [] []))) with 0 in Hs.
  change (srv_stack (Server "/" [(q, h)])) with [(q, h)] in Hs.
  fold st0 in Hs.
  destruct (next n 0 VUndefined st0) as [st1|] eqn:H1; simpl in Hs; [|discriminate].
  destruct n as [|n]; [discriminate|].
  set (f0 := Frame 0 (protohost_of u) "" false [(q, h)] KFinal).
  rewrite (next_hit n 0 VUndefined st0 f0 (q, h) eq_refl eq_refl eq_refl eq_refl Hc) in H1.
  apply call_steps in H1; [|apply next_steps].
  assert (Hd : forall r, decide_call (arity h) VUndefined r = Invoked (RequestArgs r)).
  { intros r. unfold decide_call. simpl. unfold arity_below_4 in Ha. rewrite Ha. reflexivity. }
  rewrite Hd in H1.
  destruct (steps_trace_grows _ _ (engine_any _ _ H1)) as [new1 E1].
  destruct (steps_trace_grows _ _ (loop_steps _ _ _ Hs)) as [new2 E2].
  exists (applied (new1 ++ new2)).
  rewrite E2, E1. unfold applied. rewrite <- app_assoc, omap_app.
  simpl. unfold u.
  rewrite (trim_path q rest (advance f0) Ht (protohost_of_path q rest Hq)).
  reflexivity.
Qed.

End Engine.

(** * Concrete traversals *)

Lemma arity_dispatch_witness :
  exists st',
    serve parseurl_pathname 20 abc_app (Request "GET" "/" None) = Some st' /\
    trace st' !! 3 =
      Some (Called 0 "" (Some 4) (VObj 1)
                   (Invoked (ErrorArgs (VObj 1) (Request "GET" "/" (Some "/"))))) /\
    (Some 4 = Some 4 /\ Boolean (VObj 1) = true /\ VObj 1 = VObj 1).
Proof.
  eexists. split; [vm_compute; reflexivity|]. split; [reflexivity|].
  eapply (arity_dispatch parseurl_pathname 20 abc_app (Request "GET" "/" None) _ 3 0 ""
                         (Some 4) (VObj 1)).
  - vm_compute. reflexivity.
  - reflexivity.
  - reflexivity.
Defined.

Lemma prefix_and_border_witness :
  exists st',
    serve parseurl_pathname 20 (Server "/" [("/adm", respond 3)])
          (Request "GET" "/adm.json?x=1" None) = Some st' /\
    trace st' !! 1 =
      Some (Called 0 "/adm" (Some 3) VUndefined
                   (Invoked (RequestArgs (Request "GET" "/.json?x=1" (Some "/adm.json?x=1"))))) /\
    exists j idx u p f l,
      1 = S j /\ trace st' !! j = Some (Examined 0 idx "/adm" u p VUndefined Hit) /\
      frames st' !! 0 = Some f /\ stack f !! idx = Some l /\ "/adm" = layer_route l /\
      p = pathname_of parseurl_pathname u /\
      toLowerCase (substr_to (String.length "/adm") p) = toLowerCase "/adm" /\
      (char_at (String.length "/adm") p = None \/
       char_at (String.length "/adm") p = Some "/"%char \/
       char_at (String.length "/adm") p = Some "."%char).
Proof.
  eexists. split; [vm_compute; reflexivity|]. split; [reflexivity|].
  eapply (prefix_and_border parseurl_pathname 20 (Server "/" [("/adm", respond 3)])
                            (Request "GET" "/adm.json?x=1" None) _ 1 0 "/adm").
  - vm_compute. reflexivity.
  - reflexivity.
Defined.

Lemma path_restored_witness :
  let st := enter (srv_stack nested_app) None (State (Request "GET" "/adm/x?q=1" None) [] [] []) in
  let f := Frame 0 "" "" false (srv_stack nested_app) KFinal in
  let l := ("/adm", SubApp "/adm" [("/x", pass 3); ("/y", pass 3); ("", pass 2)]) in
  (frames st !! 0 = Some f /\ stack f !! index f = Some l /\
   url (req st) = protohost f +:+ "/adm" +:+ "/x?q=1") /\
  protohost f +:+ layer_route l +:+ "/x?q=1" = url (req st).
Proof.
  intros st f l. split; [repeat split|].
  refine (proj1 (proj2 (proj2 (proj2
    (path_restored parseurl_pathname 0 0 VUndefined st f l "/adm" "/x?q=1"
                   eq_refl eq_refl eq_refl eq_refl eq_refl eq_refl eq_refl eq_refl)))) eq_refl).
Defined.

(** The scenario of two layers, [/] and [/admin], and a third after them:
    the second handler sees [/settings], the third [/admin/settings]. *)
Example admin_settings :
  exists st',
    serve parseurl_pathname 20
          (Server "/" [("", pass 3); ("/admin", pass 3); ("", respond 3)])
          (Request "GET" "/admin/settings" None) = Some st' /\
    omap (fun ev => match ev with
                    | Called _ rt _ _ (Invoked a) => Some (rt, url (args_request a))
                    | _ => None
                    end) (trace st') =
    [("", "/admin/settings"); ("/admin", "/settings"); ("", "/admin/settings")].
Proof. eexists. split; vm_compute; reflexivity. Qed.

(** A dispatcher nested at [/adm] with three layers, two of them hit: the
    layer after it in the parent is examined on the url of the request. *)
Example nested_round_trip :
  exists st',
    serve parseurl_pathname 20 nested_app (Request "GET" "/adm/x?q=1" None) = Some st' /\
    omap (fun ev => match ev with
                    | Examined fid idx _ u _ _ v => Some (fid, idx, u, v)
                    | _ => None
                    end) (trace st') =
    [(0, 0, "/adm/x?q=1", Hit);
     (1, 0, "/x?q=1", Hit); (1, 1, "/x?q=1", PrefixMiss); (1, 2, "/x?q=1", Hit);
     (0, 1, "/adm/x?q=1", Hit)].
Proof. eexists. split; vm_compute; reflexivity. Qed.

(** The request spells the mount path [/adm] as [/ADM]: the layer after it
    is examined on [/adm/x]. With the first layer mounted at the root, so
    that nothing is trimmed, it is examined on [/ADM/x]. *)
Lemma path_restore_counterexample :
  exists st1 st2,
    serve parseurl_pathname 20 (Server "/" [("/adm", pass 3); ("", respond 3)])
          (Request "GET" "/ADM/x" None) = Some st1 /\
    serve parseurl_pathname 20 (Server "/" [("", pass 3); ("", respond 3)])
          (Request "GET" "/ADM/x" None) = Some st2 /\
    trace st1 !! 0 = Some (Examined 0 0 "/adm" "/ADM/x" "/ADM/x" VUndefined Hit) /\
    trace st1 !! 1 =
      Some (Called 0 "/adm" (Some 3) VUndefined
                   (Invoked (RequestArgs (Request "GET" "/x" (Some "/ADM/x"))))) /\
    trace st1 !! 2 = Some (Examined 0 1 "" "/adm/x" "/adm/x" VUndefined Hit) /\
    trace st2 !! 2 = Some (Examined 0 1 "" "/ADM/x" "/ADM/x" VUndefined Hit) /\
    "/adm/x" <> "/ADM/x".
Proof.
  eexists. eexists.
  split; [vm_compute; reflexivity|]. split; [vm_compute; reflexivity|].
  repeat split; try reflexivity. discriminate.
Qed.

Lemma exhaustion_defers_witness :
  let st := enter [] None (State (Request "GET" "/" None) [] [] []) in
  let f := Frame 0 "" "" false [] KFinal in
  (frames st !! 0 = Some f /\ stack f !! index f = None) /\
  exists st', next parseurl_pathname 1 0 (VObj 7) st = Some st' /\
              tasks st' = [(KFinal, VObj 7)] /\ trace st' = [].
Proof.
  intros st f. split; [split; reflexivity|].
  eexists.
  exact (proj1 (exhaustion_defers parseurl_pathname 0 0 (VObj 7) st f eq_refl eq_refl)).
Defined.

Lemma use_strips_one_slash_witness :
  exists p h,
    use (RString "/admin/") (Some (MFunction 3 (fun _ => ([], Return)))) createServer =
      Some (Server "/" [(p, h)]) /\
    "/admin/" = p +:+ "/".
Proof.
  destruct (use_strips_one_slash "/admin/" (MFunction 3 (fun _ => ([], Return))) createServer)
    as (p & h & Hu & _ & Hp & _).
  exists p, h. split; [exact Hu|].
  destruct Hp as [Hp|[_ Hp]]; [exact Hp|].
  exfalso. apply Hp. reflexivity.
Defined.

(** [use('/a//', fn)] stores [/a/]; [use('/', fn)] stores the empty string. *)
Lemma use_trailing_slash_counterexample :
  use (RString "/a//") (Some (MFunction 3 (fun _ => ([], Return)))) createServer =
    Some (Server "/" [("/a/", Fn 3 (fun _ => ([], Return)))]) /\
  last_char "/a/" = Some "/"%char /\ "/a/" <> "/" /\
  use (RString "/") (Some (MFunction 3 (fun _ => ([], Return)))) createServer =
    Some (Server "/" [("", Fn 3 (fun _ => ([], Return)))]).
Proof. repeat split; try reflexivity. discriminate. Qed.

(** [use(fn)] stores the empty string as the mount path of the layer. *)
Lemma use_default_route_counterexample :
  exists l,
    use (RMiddleware (MFunction 3 (fun _ => ([], Return)))) None createServer =
      Some (Server "/" [l]) /\
    layer_route l = "" /\ layer_route l <> "/".
Proof.
  eexists. split; [reflexivity|]. split; [reflexivity|discriminate].
Qed.

Lemma abc_app_blind : blind_stack (srv_stack abc_app).
Proof.
  repeat constructor; intros a a' _; reflexivity.
Qed.

Lemma order_determinism_witness :
  exists st',
    serve parseurl_pathname 20 abc_app (Request "GET" "/" None) = Some st' /\
    (forall m st'',
        serve parseurl_pathname m abc_app (Request "GET" "/" None) = Some st'' ->
        st'' = st') /\
    exists st2,
      serve parseurl_pathname 20 abc_app (Request "POST" "/" (Some "/elsewhere"))
        = Some st2 /\
      shown (trace st2) = shown (trace st').
Proof.
  eexists. split; [vm_compute; reflexivity|].
  destruct (order_determinism parseurl_pathname 20 abc_app (Request "GET" "/" None) _
                              ltac:(vm_compute; reflexivity)) as (Hdet & Hni & _).
  split; [exact Hdet|].
  destruct (Hni (Request "POST" "/" (Some "/elsewhere")) eq_refl abc_app_blind)
    as (st2 & H2 & Ht & _).
  exists st2. split; [exact H2|exact Ht].
Defined.

Lemma original_url_kept_witness :
  exists st',
    serve parseurl_pathname 20 nested_app (Request "GET" "/adm/x" None) = Some st' /\
    captured (Request "GET" "/adm/x" None) = "/adm/x" /\
    originalUrl (req st') = Some "/adm/x".
Proof.
  eexists. split; [vm_compute; reflexivity|]. split; [reflexivity|].
  eapply (original_url_kept parseurl_pathname 20 nested_app (Request "GET" "/adm/x" None)).
  - vm_compute. reflexivity.
  - reflexivity.
  - discriminate.
Defined.

(** A request with the empty url: the server records it, a handler then
    sets the url, and the dispatcher nested after it records that one. *)
Lemma original_url_counterexample :
  exists st',
    serve parseurl_pathname 20
          (Server "/" [("", Fn 3 (fun _ => ([SetUrl "/x"; CallNext VUndefined], Return)));
                       ("", SubApp "/" [("", respond 3)])])
          (Request "GET" "" None) = Some st' /\
    trace st' !! 1 =
      Some (Called 0 "" (Some 3) VUndefined (Invoked (RequestArgs (Request "GET" "" (Some ""))))) /\
    trace st' !! 5 =
      Some (Called 1 "" (Some 3) VUndefined (Invoked (RequestArgs (Request "GET" "/x" (Some "/x"))))) /\
    originalUrl (req st') = Some "/x" /\
    Some "/x" <> Some "".
Proof.
  eexists. split; [vm_compute; reflexivity|].
  repeat split; try reflexivity. discriminate.
Qed.

Lemma zero_arity_never_invoked_witness :
  exists st',
    serve parseurl_pathname 20 (Server "/" [("", Fn 0 (fun _ => ([], Return)))])
          (Request "GET" "/" None) = Some st' /\
    trace st' !! 1 = Some (Called 0 "" None VUndefined NotInvoked) /\
    (@None nat = None /\ NotInvoked = NotInvoked).
Proof.
  eexists. split; [vm_compute; reflexivity|]. split; [reflexivity|].
  eapply (proj2 (proj2 (zero_arity_never_invoked parseurl_pathname (fun _ => ([], Return))))
                20 (Server "/" [("", Fn 0 (fun _ => ([], Return)))]) (Request "GET" "/" None)
                _ 0 "" None VUndefined NotInvoked 0 0 "/" "/"
                (Frame 2 "" "" false [("", Fn 0 (fun _ => ([], Return)))] KFinal) Hit).
  - vm_compute. reflexivity.
  - reflexivity.
  - reflexivity.
  - reflexivity.
  - reflexivity.
Defined.


(** * Witnesses of the further properties *)

Lemma getProtohost_absolute_witness :
  occurs "/" "host:8080" = false /\
  getProtohost "http://host:8080/adm/x?y=1" = Some "http://host:8080".
Proof.
  split; [reflexivity|].
  apply (getProtohost_absolute "http" "host:8080" "adm/x?y=1");
    [discriminate|reflexivity|reflexivity|reflexivity|reflexivity].
Defined.

Lemma getProtohost_no_path_witness :
  occurs "/" "host" = false /\
  getProtohost "http://host" = Some "" /\ protohost_of "http://host" = "".
Proof.
  split; [reflexivity|].
  apply (getProtohost_no_path "http" "host");
    [discriminate|reflexivity|reflexivity|reflexivity|reflexivity].
Defined.

Lemma getProtohost_ignores_query_witness :
  occurs ":" "rel/x" = false /\
  getProtohost "rel/x?back=http://host/y" = None /\
  protohost_of "rel/x?back=http://host/y" = "".
Proof.
  split; [reflexivity|].
  apply (getProtohost_ignores_query "rel/x" "back=http://host/y");
    [discriminate|discriminate|reflexivity].
Defined.

Lemma classify_case_insensitive_witness :
  toLowerCase "/adm" = toLowerCase "/ADM" /\
  classify "/adm" "/Adm/x" = classify "/ADM" "/aDM/x".
Proof.
  split; [reflexivity|].
  apply (classify_case_insensitive "/adm" "/ADM" "/Adm/x" "/aDM/x"); reflexivity.
Defined.

Lemma frames_stay_witness :
  let st := enter (srv_stack nested_app) None
                  (State (Request "GET" "/adm/x" None) [] [] []) in
  exists st',
    next parseurl_pathname 20 0 VUndefined st = Some st' /\
    frames_kept (frames st) (frames st').
Proof.
  intros st. eexists. split; [vm_compute; reflexivity|].
  apply (frames_stay parseurl_pathname 20 0 VUndefined st).
  left. vm_compute. reflexivity.
Defined.

Lemma handler_url_witness :
  exists st',
    serve parseurl_pathname 20 (Server "/" [("/adm", respond 3)])
          (Request "GET" "/adm.json?x=1" None) = Some st' /\
    trace st' !! 0 =
      Some (Examined 0 0 "/adm" "/adm.json?x=1" "/adm.json" VUndefined Hit) /\
    exists f, frames st' !! 0 = Some f /\
              "/.json?x=1" = snd (trim "/adm" f "/adm.json?x=1").
Proof.
  eexists. split; [vm_compute; reflexivity|]. split; [reflexivity|].
  destruct (handler_url parseurl_pathname 20 (Server "/" [("/adm", respond 3)])
                        (Request "GET" "/adm.json?x=1" None) _ 0 0 0 "/adm"
                        "/adm.json?x=1" "/adm.json" VUndefined (Some 3) VUndefined
                        (RequestArgs (Request "GET" "/.json?x=1" (Some "/adm.json?x=1")))
                        ltac:(vm_compute; reflexivity) eq_refl eq_refl)
    as (f & Hf & Hu & _).
  exists f. split; [exact Hf|exact Hu].
Defined.

Lemma error_reaches_done_witness :
  let stk := [("", respond 3); ("/a", pass 2)] in
  let st := enter stk None (State (Request "GET" "/a" None) [] [] []) in
  exists st',
    next parseurl_pathname 3 0 (VObj 1) st = Some st' /\
    tasks st' = [(KFinal, VObj 1)] /\ applied (trace st') = [].
Proof.
  intros stk st.
  destruct (error_reaches_done parseurl_pathname 0 (VObj 1) st
                               (Frame 0 "" "" false stk KFinal) eq_refl eq_refl)
    as (st' & Hn & Ht & Ha & _).
  - intros l Hl. apply Forall_forall with (x := l) (l := stk); [|exact Hl].
    repeat constructor; discriminate.
  - exists st'. split; [apply Hn; simpl; lia|]. split; [exact Ht|exact Ha].
Defined.

Lemma nothing_fits_witness :
  let app := Server "/" [("", pass 4); ("/a", respond 0)] in
  exists st',
    serve parseurl_pathname 4 app (Request "GET" "/a" None) = Some st' /\
    terminals (trace st') = [(KFinal, VUndefined)] /\ applied (trace st') = [].
Proof.
  intros app.
  destruct (nothing_fits parseurl_pathname app (Request "GET" "/a" None))
    as (st' & Hs & Ht & Ha & _).
  - intros l Hl. apply Forall_forall with (x := l) (l := srv_stack app); [|exact Hl].
    repeat constructor.
  - exists st'. split; [apply Hs; simpl; lia|]. split; [exact Ht|exact Ha].
Defined.


Lemma mounted_handler_url_witness :
  exists st',
    use (RString "/admin/") (Some (MFunction 3 (fun _ => ([], Return)))) createServer =
      Some (Server "/" [("/admin", respond 3)]) /\
    serve parseurl_pathname 20 (Server "/" [("/admin", respond 3)])
          (Request "GET" "/admin.json?x=1" None) = Some st' /\
    exists more,
      applied (trace st') =
      (0, "/admin",
       RequestArgs (Request "GET" "/.json?x=1" (Some "/admin.json?x=1"))) :: more.
Proof.
  eexists. split; [reflexivity|]. split; [vm_compute; reflexivity|].
  exact (mounted_handler_url parseurl_pathname "/admin/"
                             (MFunction 3 (fun _ => ([], Return))) (respond 3)
                             "GET" ".json?x=1" 20 (Server "/" [("/admin", respond 3)]) _
                             eq_refl eq_refl eq_refl eq_refl
                             ltac:(vm_compute; reflexivity) eq_refl
                             ltac:(vm_compute; reflexivity)).
Defined.
